(** * clim365-zod: deriving command-line options from a zod schema

    Shallow embedding of [src/index.ts]: the alias annotator [alias], the
    schema walkers [parseEffect] ... [parseNativeEnum], the dispatcher
    [getParseFn], the unwrap loop [parseDef], the entry point
    [schemaToOptions] and the yargs-parser configuration built from the
    derived table. *)

From stdpp Require Import gmap strings list fin_maps pretty.
From Stdlib Require Import Ascii NArith.

Local Open Scope string_scope.
Local Open Scope list_scope.
Set Warnings "-register-all".

(** ** JavaScript objects as ordered property lists

    A plain object is the list of its own string-keyed properties in creation
    order (keys pairwise distinct).  [for ... in] and
    [Object.getOwnPropertyNames] both visit the own keys in the order of
    OrdinaryOwnPropertyKeys: array-index keys first, in ascending numeric
    order, then every other string key in creation order. *)
Module JsObject.

Definition digit (c : ascii) : option N :=
  let n := N_of_ascii c in
  if ((48 <=? n) && (n <=? 57))%N then Some (n - 48)%N else None.

Fixpoint digits (s : string) (acc : N) : option N :=
  match s with
  | EmptyString => Some acc
  | String c s' =>
      match digit c with
      | Some d => digits s' (10 * acc + d)%N
      | None => None
      end
  end.

(** An array index is a canonical decimal numeral (no sign, no leading
    zero) whose value is at most 2^32 - 2. *)
Definition arrayIndex (key : string) : option N :=
  match key with
  | EmptyString => None
  | String "0" EmptyString => Some 0%N
  | String "0" _ => None
  | _ =>
      match digits key 0 with
      | Some n => if (n <? 4294967295)%N then Some n else None
      | None => None
      end
  end.

Definition isArrayIndex (key : string) : bool :=
  match arrayIndex key with Some _ => true | None => false end.

Definition indexOf (key : string) : N := default 0%N (arrayIndex key).

Section Keys.
Context {V : Type}.

Fixpoint insertByIndex (p : string * V) (l : list (string * V)) : list (string * V) :=
  match l with
  | [] => [p]
  | q :: l' =>
      if (indexOf p.1 <? indexOf q.1)%N then p :: q :: l'
      else q :: insertByIndex p l'
  end.

Definition sortByIndex (l : list (string * V)) : list (string * V) :=
  foldr insertByIndex [] l.

Definition indexed (l : list (string * V)) : list (string * V) :=
  List.filter (fun p => isArrayIndex p.1) l.

Definition named (l : list (string * V)) : list (string * V) :=
  List.filter (fun p => negb (isArrayIndex p.1)) l.

(** The own properties in the order [for ... in] visits them. *)
Definition ownProperties (o : list (string * V)) : list (string * V) :=
  sortByIndex (indexed o) ++ named o.

(** [Object.getOwnPropertyNames(o)]. *)
Definition getOwnPropertyNames (o : list (string * V)) : list string :=
  map fst (ownProperties o).
End Keys.

(** A property under its key, with another value. *)
Definition relabel {V W : Type} (f : string * V -> W) (p : string * V) : string * W :=
  (p.1, f p).

(** [o[key] = value] for a string [value] on a plain object, one whose
    prototype is [Object.prototype], as a map of its own properties: the
    property is created or overwritten, except under the key [__proto__],
    where the setter inherited from the prototype is called instead and
    ignores a value that is neither an object nor [null]. *)
Definition assign (key value : string) (o : gmap string string) : gmap string string :=
  if (key =? "__proto__")%string then o else <[key := value]> o.

End JsObject.

(** ** Schema nodes

    [z.ZodFirstPartyTypeKind]: the ten kinds [getParseFn] dispatches on,
    [ZodAny], which [parseIntersection] tests for, and every other kind of
    the library under its name. *)
Inductive ZodFirstPartyTypeKind :=
| ZodString | ZodNumber | ZodBoolean | ZodAny
| ZodObject | ZodIntersection | ZodEnum | ZodEffects
| ZodNativeEnum | ZodOptional | ZodDefault
| ZodOtherKind (kind : string).

(** A value of a TypeScript enum object: a string or a number. *)
Inductive EnumValue :=
| StringValue (s : string)
| NumberValue (n : Z).

(** [z.ZodTypeDef], the [_def] of a schema node, as [schemaToOptions] finds it:
    every node carries the [alias] slot written by the annotator, and the
    payload the walkers read ([schema], [left]/[right], [shape()],
    [innerType], [values]).  The payload of the kinds the walkers do not
    know is never read. *)
Inductive ZodTypeDef :=
| ZodStringDef (alias : option string)
| ZodNumberDef (alias : option string)
| ZodBooleanDef (alias : option string)
| ZodAnyDef (alias : option string)
| ZodObjectDef (alias : option string) (shape : list (string * ZodTypeDef))
| ZodIntersectionDef (alias : option string) (left right : ZodTypeDef)
| ZodEnumDef (alias : option string) (values : list string)
| ZodEffectsDef (alias : option string) (schema : ZodTypeDef)
| ZodNativeEnumDef (alias : option string) (values : list (string * EnumValue))
| ZodOptionalDef (alias : option string) (innerType : ZodTypeDef)
| ZodDefaultDef (alias : option string) (innerType : ZodTypeDef)
| ZodOtherDef (alias : option string) (kind : string).

Definition typeName (def : ZodTypeDef) : ZodFirstPartyTypeKind :=
  match def with
  | ZodStringDef _ => ZodString
  | ZodNumberDef _ => ZodNumber
  | ZodBooleanDef _ => ZodBoolean
  | ZodAnyDef _ => ZodAny
  | ZodObjectDef _ _ => ZodObject
  | ZodIntersectionDef _ _ _ => ZodIntersection
  | ZodEnumDef _ _ => ZodEnum
  | ZodEffectsDef _ _ => ZodEffects
  | ZodNativeEnumDef _ _ => ZodNativeEnum
  | ZodOptionalDef _ _ => ZodOptional
  | ZodDefaultDef _ _ => ZodDefault
  | ZodOtherDef _ kind => ZodOtherKind kind
  end.

(** [def.alias] *)
Definition defAlias (def : ZodTypeDef) : option string :=
  match def with
  | ZodStringDef a | ZodNumberDef a | ZodBooleanDef a | ZodAnyDef a
  | ZodObjectDef a _ | ZodIntersectionDef a _ _ | ZodEnumDef a _
  | ZodEffectsDef a _ | ZodNativeEnumDef a _ | ZodOptionalDef a _
  | ZodDefaultDef a _ | ZodOtherDef a _ => a
  end.

Definition isZodAny (def : ZodTypeDef) : bool :=
  match typeName def with ZodAny => true | _ => false end.

(** ** Option descriptors: [interface OptionInfo]

    [optAlias] is the [alias] property, [alias] being the annotator here. *)
Inductive OptionType := TString | TBoolean | TNumber.

Record OptionInfo := mkOptionInfo {
  name : string;
  optAlias : option string;
  required : bool;
  autocomplete : option (list string);
  type : OptionType
}.

Global Instance OptionType_eq_dec : EqDecision OptionType.
Proof. solve_decision. Defined.

Definition setType (t : OptionType) (o : OptionInfo) : OptionInfo :=
  mkOptionInfo (name o) (optAlias o) (required o) (autocomplete o) t.

Definition setRequired (b : bool) (o : OptionInfo) : OptionInfo :=
  mkOptionInfo (name o) (optAlias o) b (autocomplete o) (type o).

Definition setAutocomplete (l : list string) (o : OptionInfo) : OptionInfo :=
  mkOptionInfo (name o) (optAlias o) (required o) (Some l) (type o).

(** ** The schema walkers

    A walker receives the node's [_def], the table [options] built so far and
    the descriptor in progress [currentOption] (absent at the root); it may
    append to the table, write into the descriptor, and returns the [_def]
    to go on with, or [undefined].  Here the mutated table and descriptor are
    returned next to that result.  [parseObject] calls back into [parseDef],
    which is passed as [rec]; [None] means the unwrap loop below was cut off
    before it came to its end. *)
Definition Walk : Type :=
  option (option ZodTypeDef * list OptionInfo * option OptionInfo).

Definition Parse : Type :=
  list OptionInfo -> option OptionInfo -> Walk.

Definition ParseDef : Type :=
  ZodTypeDef -> list OptionInfo -> option OptionInfo ->
  option (list OptionInfo * option OptionInfo).

Definition parseEffect (schema : ZodTypeDef) : Parse :=
  fun options currentOption => Some (Some schema, options, currentOption).

Definition parseIntersection (left right : ZodTypeDef) : Parse :=
  fun options currentOption =>
    if negb (isZodAny left) then Some (Some left, options, currentOption)
    else if negb (isZodAny right) then Some (Some right, options, currentOption)
    else Some (None, options, currentOption).

(** The descriptor [parseObject] creates for the property [key]. *)
Definition newOption (key : string) (property : ZodTypeDef) : OptionInfo :=
  {| name := key;
     optAlias := defAlias property;
     required := true;
     autocomplete := None;
     type := TString |}.

(** One turn of [for (const key in properties)]: the descriptor is created,
    handed to [parseDef] together with the table, and pushed afterwards.
    What is pushed is the object handed in, as [parseDef] has left it;
    [rec] never comes back without it ([parseDef_keeps_descriptor]), so the
    [default] is never used. *)
Definition parseProperty (rec : ParseDef) (options : list OptionInfo)
    (p : string * ZodTypeDef) : option (list OptionInfo) :=
  let option := newOption p.1 p.2 in
  match rec p.2 options (Some option) with
  | Some (options', current) => Some (options' ++ [default option current])
  | None => None
  end.

Fixpoint parseProperties (rec : ParseDef) (properties : list (string * ZodTypeDef))
    (options : list OptionInfo) : option (list OptionInfo) :=
  match properties with
  | [] => Some options
  | p :: rest =>
      match parseProperty rec options p with
      | Some options' => parseProperties rec rest options'
      | None => None
      end
  end.

Definition parseObject (rec : ParseDef) (shape : list (string * ZodTypeDef)) : Parse :=
  fun options currentOption =>
    match parseProperties rec (JsObject.ownProperties shape) options with
    | Some options' => Some (None, options', currentOption)
    | None => None
    end.

Definition parseString : Parse :=
  fun options currentOption => Some (None, options, setType TString <$> currentOption).

Definition parseNumber : Parse :=
  fun options currentOption => Some (None, options, setType TNumber <$> currentOption).

Definition parseBoolean : Parse :=
  fun options currentOption => Some (None, options, setType TBoolean <$> currentOption).

Definition parseOptional (innerType : ZodTypeDef) : Parse :=
  fun options currentOption =>
    Some (Some innerType, options, setRequired false <$> currentOption).

Definition parseDefault (innerType : ZodTypeDef) : Parse :=
  fun options currentOption => Some (Some innerType, options, currentOption).

Definition parseEnum (values : list string) : Parse :=
  fun options currentOption =>
    Some (None, options, (setAutocomplete values ∘ setType TString) <$> currentOption).

Definition parseNativeEnum (values : list (string * EnumValue)) : Parse :=
  fun options currentOption =>
    Some (None, options,
          (setAutocomplete (JsObject.getOwnPropertyNames values) ∘ setType TString)
            <$> currentOption).

(** [getParseFn((parsedDef as any).typeName)], with the walker already given
    the payload of the node it is about to be called on. *)
Definition getParseFn (rec : ParseDef) (def : ZodTypeDef) : option Parse :=
  match def with
  | ZodEffectsDef _ schema => Some (parseEffect schema)
  | ZodObjectDef _ shape => Some (parseObject rec shape)
  | ZodOptionalDef _ innerType => Some (parseOptional innerType)
  | ZodStringDef _ => Some parseString
  | ZodNumberDef _ => Some parseNumber
  | ZodBooleanDef _ => Some parseBoolean
  | ZodEnumDef _ values => Some (parseEnum values)
  | ZodNativeEnumDef _ values => Some (parseNativeEnum values)
  | ZodDefaultDef _ innerType => Some (parseDefault innerType)
  | ZodIntersectionDef _ l r => Some (parseIntersection l r)
  | ZodAnyDef _ | ZodOtherDef _ _ => None
  end.

(** The [do ... while (parsedDef)] loop of [parseDef].  [fuel] bounds the
    number of turns of the loop, every turn using one up; a loop
    [parseObject] starts within a turn is given what is left.  A run that
    needs more yields [None]. *)
Fixpoint parseDef (fuel : nat) : ParseDef :=
  fun def options currentOption =>
    match fuel with
    | O => None
    | S fuel' =>
        match getParseFn (parseDef fuel') def with
        | None => Some (options, currentOption)
        | Some parse =>
            match parse options currentOption with
            | None => None
            | Some (None, options', currentOption') =>
                Some (options', currentOption')
            | Some (Some parsedDef, options', currentOption') =>
                parseDef fuel' parsedDef options' currentOption'
            end
        end
    end.

Definition schemaToOptions (fuel : nat) (schema : ZodTypeDef) : option (list OptionInfo) :=
  fst <$> parseDef fuel schema [] None.

(** ** The yargs-parser configuration built from the table

    [alias] is the object filled by [optionsInfo.reduce]; [boolean],
    [number] and [string] are the [filter(...).map(option => option.name)]
    lists. *)
Definition truthy (s : string) : bool :=
  match s with EmptyString => false | String _ _ => true end.

Record ParserOptions := mkParserOptions {
  aliasMap : gmap string string;
  booleanNames : list string;
  numberNames : list string;
  stringNames : list string
}.

Definition addAlias (aliases : gmap string string) (option : OptionInfo) : gmap string string :=
  match optAlias option with
  | Some a => if truthy a then JsObject.assign (name option) a aliases else aliases
  | None => aliases
  end.

Definition namesOfType (t : OptionType) (optionsInfo : list OptionInfo) : list string :=
  name <$> filter (fun option => type option = t) optionsInfo.

Definition parserOptions (optionsInfo : list OptionInfo) : ParserOptions :=
  {| aliasMap := foldl addAlias ∅ optionsInfo;
     booleanNames := namesOfType TBoolean optionsInfo;
     numberNames := namesOfType TNumber optionsInfo;
     stringNames := namesOfType TString optionsInfo |}.

(** ** The schemas of the login command

    [OutputType], [globalOptions], the object [enum CloudType] compiles to,
    and [commandOptions] ([extend] appends the new properties to those of
    [globalOptions]; [strict] leaves the kind and the shape as they are). *)
Definition OutputType : ZodTypeDef :=
  ZodEnumDef None ["csv"; "json"; "md"; "text"; "none"].

Definition globalShape : list (string * ZodTypeDef) :=
  [ ("query", ZodOptionalDef None (ZodStringDef None));
    ("output", ZodOptionalDef None OutputType);
    ("debug", ZodDefaultDef None (ZodBooleanDef None));
    ("verbose", ZodDefaultDef None (ZodBooleanDef None)) ].

Definition globalOptions : ZodTypeDef := ZodObjectDef None globalShape.

(** The object a TypeScript [enum] without initializers compiles to,
    [E[E["A"] = 0] = "A"; E[E["B"] = 1] = "B"; ...]: every member name is
    given its position as value, and the position, as a key, the name. *)
Definition numericEnum (members : list string) : list (string * EnumValue) :=
  List.concat
    (imap (fun i member =>
             [(member, NumberValue (Z.of_nat i)); (pretty i, StringValue member)])
          members).

Definition CloudTypeMembers : list string :=
  ["Public"; "USGov"; "USGovHigh"; "USGovDoD"; "China"].

Definition CloudType : list (string * EnumValue) := numericEnum CloudTypeMembers.

Definition optionalString : ZodTypeDef := ZodOptionalDef None (ZodStringDef None).

Definition loginShape : list (string * ZodTypeDef) :=
  [ ("authType",
      ZodDefaultDef (Some "t") (ZodOptionalDef None
        (ZodEnumDef None ["certificate"; "deviceCode"; "password";
                          "identity"; "browser"; "secret"])));
    ("cloud", ZodDefaultDef None (ZodOptionalDef None (ZodNativeEnumDef None CloudType)));
    ("userName", ZodOptionalDef (Some "u") (ZodStringDef None));
    ("password", ZodOptionalDef (Some "p") (ZodStringDef None));
    ("certificateFile", ZodEffectsDef (Some "c") optionalString);
    ("certificateBase64Encoded", optionalString);
    ("thumbprint", optionalString);
    ("appId", optionalString);
    ("tenant", optionalString);
    ("secret", ZodOptionalDef (Some "s") (ZodStringDef None));
    ("dummyNumber", ZodOptionalDef None (ZodNumberDef None));
    ("dummyBoolean", ZodOptionalDef None (ZodBooleanDef None)) ].

Definition commandOptions : ZodTypeDef :=
  ZodObjectDef None (globalShape ++ loginShape).

(** ** What a run amounts to

    [next] is the [_def] a walker hands back to the loop, [chain] the nodes
    the loop dispatches on in turn, [write] what the walker of a node writes
    into the descriptor in progress, [resolve] the descriptor at the end of
    the chain, and [appended] the descriptors the run pushes onto the table.
    [height] bounds the number of nested loop turns. *)
Definition next (def : ZodTypeDef) : option ZodTypeDef :=
  match def with
  | ZodEffectsDef _ schema => Some schema
  | ZodOptionalDef _ innerType | ZodDefaultDef _ innerType => Some innerType
  | ZodIntersectionDef _ l r =>
      if negb (isZodAny l) then Some l
      else if negb (isZodAny r) then Some r
      else None
  | _ => None
  end.

Fixpoint chain (def : ZodTypeDef) : list ZodTypeDef :=
  def ::
  match def with
  | ZodEffectsDef _ schema => chain schema
  | ZodOptionalDef _ innerType | ZodDefaultDef _ innerType => chain innerType
  | ZodIntersectionDef _ l r =>
      if negb (isZodAny l) then chain l
      else if negb (isZodAny r) then chain r
      else []
  | _ => []
  end.

Definition isOptional (def : ZodTypeDef) : bool :=
  match def with ZodOptionalDef _ _ => true | _ => false end.

Definition isObject (def : ZodTypeDef) : bool :=
  match def with ZodObjectDef _ _ => true | _ => false end.

Definition hasOptional (def : ZodTypeDef) : bool := existsb isOptional (chain def).

Definition reachesObject (def : ZodTypeDef) : bool := existsb isObject (chain def).

Definition write (def : ZodTypeDef) (o : OptionInfo) : OptionInfo :=
  match def with
  | ZodOptionalDef _ _ => setRequired false o
  | ZodStringDef _ => setType TString o
  | ZodNumberDef _ => setType TNumber o
  | ZodBooleanDef _ => setType TBoolean o
  | ZodEnumDef _ values => setAutocomplete values (setType TString o)
  | ZodNativeEnumDef _ values =>
      setAutocomplete (JsObject.getOwnPropertyNames values) (setType TString o)
  | _ => o
  end.

Definition resolve (def : ZodTypeDef) (o : OptionInfo) : OptionInfo :=
  foldl (fun o d => write d o) o (chain def).

Fixpoint appended (def : ZodTypeDef) : list OptionInfo :=
  match def with
  | ZodEffectsDef _ schema => appended schema
  | ZodOptionalDef _ innerType | ZodDefaultDef _ innerType => appended innerType
  | ZodIntersectionDef _ l r =>
      if negb (isZodAny l) then appended l
      else if negb (isZodAny r) then appended r
      else []
  | ZodObjectDef _ shape =>
      List.concat (map snd (JsObject.ownProperties
        (map (JsObject.relabel
                (fun p => appended p.2 ++ [resolve p.2 (newOption p.1 p.2)]))
             shape)))
  | _ => []
  end.

(** What the turn of [parseObject] for the property [p] pushes. *)
Definition pushed (p : string * ZodTypeDef) : list OptionInfo :=
  appended p.2 ++ [resolve p.2 (newOption p.1 p.2)].

Fixpoint height (def : ZodTypeDef) : nat :=
  match def with
  | ZodEffectsDef _ schema => S (height schema)
  | ZodOptionalDef _ innerType | ZodDefaultDef _ innerType => S (height innerType)
  | ZodIntersectionDef _ l r => S (max (height l) (height r))
  | ZodObjectDef _ shape => S (foldr (fun p m => max (height p.2) m) 0 shape)
  | _ => 1
  end.

(** ** Property order *)
(** The node the loop ends at: the last of [chain def]. *)
Fixpoint lastNode (def : ZodTypeDef) : ZodTypeDef :=
  match def with
  | ZodEffectsDef _ schema => lastNode schema
  | ZodOptionalDef _ innerType | ZodDefaultDef _ innerType => lastNode innerType
  | ZodIntersectionDef _ l r =>
      if negb (isZodAny l) then lastNode l
      else if negb (isZodAny r) then lastNode r
      else def
  | _ => def
  end.

(** The type [parseString], [parseNumber] and [parseBoolean] write. *)
Definition primitiveType (def : ZodTypeDef) : option OptionType :=
  match def with
  | ZodStringDef _ => Some TString
  | ZodNumberDef _ => Some TNumber
  | ZodBooleanDef _ => Some TBoolean
  | _ => None
  end.

Definition setOptAlias (a : option string) (o : OptionInfo) : OptionInfo :=
  mkOptionInfo (name o) a (required o) (autocomplete o) (type o).

(** The flag cleared if [b] holds, as an Optional node on the chain does. *)
Definition clearRequired (b : bool) (o : OptionInfo) : OptionInfo :=
  {| name := name o; optAlias := optAlias o; required := required o && negb b;
     autocomplete := autocomplete o; type := type o |}.

(** The properties of the objects the loop comes to, nested ones included. *)
Fixpoint fieldCount (def : ZodTypeDef) : nat :=
  match def with
  | ZodEffectsDef _ schema => fieldCount schema
  | ZodOptionalDef _ innerType | ZodDefaultDef _ innerType => fieldCount innerType
  | ZodIntersectionDef _ l r =>
      if negb (isZodAny l) then fieldCount l
      else if negb (isZodAny r) then fieldCount r
      else 0
  | ZodObjectDef _ shape => sum_list_with (fun p => S (fieldCount p.2)) shape
  | _ => 0
  end.

(** [getGlobalRefinedSchema] and [getRefinedSchema], as far as the walkers
    read a schema: every [refine] puts one Effects node, without alias,
    around the schema it is called on. *)
Definition getGlobalRefinedSchema (schema : ZodTypeDef) : ZodTypeDef :=
  ZodEffectsDef None schema.

Definition getRefinedSchema (schema : ZodTypeDef) : ZodTypeDef :=
  ZodEffectsDef None (ZodEffectsDef None (ZodEffectsDef None
    (ZodEffectsDef None (ZodEffectsDef None (getGlobalRefinedSchema schema))))).

(** [n] Optional wrappers around [def]. *)
Definition wrapOptional (n : nat) (def : ZodTypeDef) : ZodTypeDef :=
  Nat.iter n (ZodOptionalDef None) def.

(** The alias [addAlias] enters for a descriptor, if any. *)
Definition enteredAlias (option : OptionInfo) : Datatypes.option string :=
  match optAlias option with
  | Some a =>
      if truthy a && negb (name option =? "__proto__")%string then Some a else None
  | None => None
  end.

(** ** Schema objects

    [alias] is handed a schema object, not a tree: objects are held by
    reference, and one object may be held by several others.  A store lists
    the objects, the reference being the position; an object has the alias
    slot of its [_def] and, per kind, the references its [_def] holds. *)
Inductive Payload :=
| StringNode | NumberNode | BooleanNode | AnyNode
| ObjectNode (shape : list (string * nat))
| IntersectionNode (left right : nat)
| EnumNode (values : list string)
| EffectsNode (schema : nat)
| NativeEnumNode (values : list (string * EnumValue))
| OptionalNode (innerType : nat)
| DefaultNode (innerType : nat)
| OtherNode (kind : string).

Record ZodType := mkZodType {
  nodeAlias : option string;
  payload : Payload
}.

(** [alias(alias, type)]: [type._def.alias = alias; return type].  The
    object is written in place and handed back itself. *)
Definition alias (a : string) (type : nat) (store : list ZodType) : nat * list ZodType :=
  (type, alter (fun t => mkZodType (Some a) (payload t)) type store).

(** The [_def] of the object [type] with all it leads to, as the walkers
    find it; [fuel] bounds how deep it is followed. *)
Fixpoint defOf (fuel : nat) (store : list ZodType) (type : nat) : option ZodTypeDef :=
  match fuel with
  | O => None
  | S fuel' =>
      t ← store !! type;
      match payload t with
      | StringNode => Some (ZodStringDef (nodeAlias t))
      | NumberNode => Some (ZodNumberDef (nodeAlias t))
      | BooleanNode => Some (ZodBooleanDef (nodeAlias t))
      | AnyNode => Some (ZodAnyDef (nodeAlias t))
      | ObjectNode shape =>
          ZodObjectDef (nodeAlias t)
            <$> mapM (fun p => pair p.1 <$> defOf fuel' store p.2) shape
      | IntersectionNode l r =>
          l' ← defOf fuel' store l;
          r' ← defOf fuel' store r;
          Some (ZodIntersectionDef (nodeAlias t) l' r')
      | EnumNode values => Some (ZodEnumDef (nodeAlias t) values)
      | EffectsNode schema => ZodEffectsDef (nodeAlias t) <$> defOf fuel' store schema
      | NativeEnumNode values => Some (ZodNativeEnumDef (nodeAlias t) values)
      | OptionalNode innerType =>
          ZodOptionalDef (nodeAlias t) <$> defOf fuel' store innerType
      | DefaultNode innerType =>
          ZodDefaultDef (nodeAlias t) <$> defOf fuel' store innerType
      | OtherNode kind => Some (ZodOtherDef (nodeAlias t) kind)
      end
  end.

(** A [_def] with every alias slot emptied. *)
Fixpoint eraseAlias (def : ZodTypeDef) : ZodTypeDef :=
  match def with
  | ZodStringDef _ => ZodStringDef None
  | ZodNumberDef _ => ZodNumberDef None
  | ZodBooleanDef _ => ZodBooleanDef None
  | ZodAnyDef _ => ZodAnyDef None
  | ZodObjectDef _ shape =>
      ZodObjectDef None (map (JsObject.relabel (fun p => eraseAlias p.2)) shape)
  | ZodIntersectionDef _ l r => ZodIntersectionDef None (eraseAlias l) (eraseAlias r)
  | ZodEnumDef _ values => ZodEnumDef None values
  | ZodEffectsDef _ schema => ZodEffectsDef None (eraseAlias schema)
  | ZodNativeEnumDef _ values => ZodNativeEnumDef None values
  | ZodOptionalDef _ innerType => ZodOptionalDef None (eraseAlias innerType)
  | ZodDefaultDef _ innerType => ZodDefaultDef None (eraseAlias innerType)
  | ZodOtherDef _ kind => ZodOtherDef None kind
  end.

Module JsObjectFacts.
Import JsObject.

Section Order.
Context {V : Type}.
Implicit Types (l : list (string * V)) (p : string * V).

Lemma insertByIndex_perm p l : insertByIndex p l ≡ₚ p :: l.
Proof.
  induction l as [|q l IH]; simpl; [done|].
  destruct (indexOf p.1 <? indexOf q.1)%N; [done|].
  rewrite IH. apply Permutation_swap.
Qed.

Lemma sortByIndex_perm l : sortByIndex l ≡ₚ l.
Proof.
  induction l as [|q l IH]; simpl; [done|].
  rewrite insertByIndex_perm. by rewrite IH.
Qed.

Lemma indexed_named_perm l : indexed l ++ named l ≡ₚ l.
Proof.
  unfold indexed, named.
  induction l as [|q l IH]; simpl; [done|].
  destruct (isArrayIndex q.1); simpl.
  - by rewrite IH.
  - rewrite <- Permutation_middle. by rewrite IH.
Qed.

Lemma ownProperties_perm l : ownProperties l ≡ₚ l.
Proof.
  unfold ownProperties. rewrite sortByIndex_perm. apply indexed_named_perm.
Qed.

Lemma indexed_none l :
  Forall (fun p => isArrayIndex p.1 = false) l -> indexed l = [].
Proof.
  unfold indexed. induction 1 as [|q l Hq _ IH]; simpl; [done|]. by rewrite Hq.
Qed.

Lemma named_all l :
  Forall (fun p => isArrayIndex p.1 = false) l -> named l = l.
Proof.
  unfold named. induction 1 as [|q l Hq _ IH]; simpl; [done|].
  rewrite Hq. simpl. by rewrite IH.
Qed.

(** Without array-index keys, creation order. *)
Lemma ownProperties_named l :
  Forall (fun p => isArrayIndex p.1 = false) l -> ownProperties l = l.
Proof.
  intros H. unfold ownProperties. by rewrite indexed_none, named_all.
Qed.
End Order.

Section Relabel.
Context {V W : Type} (f : string * V -> W).

Lemma insertByIndex_map p l :
  insertByIndex (relabel f p) (map (relabel f) l) = map (relabel f) (insertByIndex p l).
Proof.
  induction l as [|q l IH]; simpl; [done|].
  destruct (indexOf p.1 <? indexOf q.1)%N; simpl; [done|]. by rewrite IH.
Qed.

Lemma sortByIndex_map l : sortByIndex (map (relabel f) l) = map (relabel f) (sortByIndex l).
Proof.
  unfold sortByIndex. induction l as [|q l IH]; simpl; [done|].
  rewrite IH. apply insertByIndex_map.
Qed.

Lemma filter_key_map (P : string -> bool) l :
  List.filter (fun p => P p.1) (map (relabel f) l) = map (relabel f) (List.filter (fun p => P p.1) l).
Proof.
  induction l as [|q l IH]; simpl; [done|].
  destruct (P q.1); simpl; by rewrite IH.
Qed.

(** The order depends on the keys alone. *)
Lemma ownProperties_map l : ownProperties (map (relabel f) l) = map (relabel f) (ownProperties l).
Proof.
  unfold ownProperties, indexed, named.
  rewrite (filter_key_map isArrayIndex).
  rewrite (filter_key_map (fun k => negb (isArrayIndex k))).
  by rewrite sortByIndex_map, map_app.
Qed.
End Relabel.

Lemma getOwnPropertyNames_perm {V} (o : list (string * V)) :
  getOwnPropertyNames o ≡ₚ map fst o.
Proof. unfold getOwnPropertyNames. by rewrite ownProperties_perm. Qed.

End JsObjectFacts.

(** ** The unwrap loop computes [resolve] and [appended] *)
Section Chains.
Implicit Types (def : ZodTypeDef) (o : OptionInfo).

Lemma chain_next def :
  chain def = def :: match next def with Some d => chain d | None => [] end.
Proof.
  destruct def; simpl; try done.
  destruct (negb (isZodAny def1)); [done|]. by destruct (negb (isZodAny def2)).
Qed.

Lemma resolve_next def o :
  resolve def o =
  match next def with Some d => resolve d (write def o) | None => write def o end.
Proof. unfold resolve. rewrite chain_next. simpl. by destruct (next def). Qed.

Lemma resolve_current_next def (currentOption : option OptionInfo) :
  resolve def <$> currentOption =
  match next def with
  | Some d => resolve d <$> (write def <$> currentOption)
  | None => write def <$> currentOption
  end.
Proof.
  destruct currentOption as [o|]; simpl.
  - rewrite resolve_next. by destruct (next def).
  - by destruct (next def).
Qed.

Lemma appended_next def :
  isObject def = false ->
  appended def = match next def with Some d => appended d | None => [] end.
Proof.
  destruct def; simpl; try done.
  destruct (negb (isZodAny def1)); [done|]. by destruct (negb (isZodAny def2)).
Qed.

Lemma height_next def d : next def = Some d -> S (height d) <= height def.
Proof.
  destruct def; simpl; try done; try (intros [= ->]; lia).
  destruct (negb (isZodAny def1)); [intros [= ->]; lia|].
  destruct (negb (isZodAny def2)); [intros [= ->]; lia|done].
Qed.

Lemma height_pos def : 1 <= height def.
Proof. destruct def; simpl; lia. Qed.

Lemma height_shape (shape : list (string * ZodTypeDef)) p :
  In p shape -> height p.2 <= foldr (fun p m => max (height p.2) m) 0 shape.
Proof.
  induction shape as [|q shape IH]; simpl; [done|].
  intros [->|H]; [lia|]. specialize (IH H). lia.
Qed.

Lemma write_name def o : name (write def o) = name o.
Proof. by destruct def. Qed.

Lemma write_optAlias def o : optAlias (write def o) = optAlias o.
Proof. by destruct def. Qed.

Lemma write_required def o :
  required (write def o) = required o && negb (isOptional def).
Proof. destruct def; simpl; by rewrite ?andb_true_r, ?andb_false_r. Qed.

Lemma resolve_name def o : name (resolve def o) = name o.
Proof.
  unfold resolve. revert o.
  induction (chain def) as [|d l IH]; intros o; simpl; [done|].
  by rewrite IH, write_name.
Qed.

Lemma resolve_optAlias def o : optAlias (resolve def o) = optAlias o.
Proof.
  unfold resolve. revert o.
  induction (chain def) as [|d l IH]; intros o; simpl; [done|].
  by rewrite IH, write_optAlias.
Qed.

(** The flag is only ever cleared, and only by an Optional node. *)
Lemma resolve_required def o :
  required (resolve def o) = required o && negb (hasOptional def).
Proof.
  unfold resolve, hasOptional. revert o.
  induction (chain def) as [|d l IH]; intros o; simpl.
  - by rewrite andb_true_r.
  - rewrite IH, write_required, negb_orb. by rewrite andb_assoc.
Qed.

Lemma appended_flat def : reachesObject def = false -> appended def = [].
Proof.
  unfold reachesObject.
  induction def; simpl; try done; intros H.
  destruct (negb (isZodAny def1)); [by apply IHdef1|].
  destruct (negb (isZodAny def2)); [by apply IHdef2|done].
Qed.
End Chains.

Section Loop.
Implicit Types (def : ZodTypeDef) (options : list OptionInfo)
  (currentOption : option OptionInfo).

(** A walker other than [parseObject] leaves the table alone, writes
    [write def] into the descriptor and hands back [next def]. *)
Lemma walker_step rec def parse options currentOption :
  isObject def = false ->
  getParseFn rec def = Some parse ->
  parse options currentOption = Some (next def, options, write def <$> currentOption).
Proof.
  destruct def; simpl; try done; intros _ [= <-];
    try by (cbv [parseString parseNumber parseBoolean parseEnum parseEffect
                 parseNativeEnum parseOptional parseDefault];
            destruct currentOption).
  unfold parseIntersection.
  destruct (negb (isZodAny def1)); [by destruct currentOption|].
  destruct (negb (isZodAny def2)); by destruct currentOption.
Qed.

Lemma unknown_step rec def :
  getParseFn rec def = None -> next def = None /\ isObject def = false
    /\ forall o, write def o = o.
Proof. destruct def; simpl; try done. Qed.

Lemma parseProperties_spec (rec : ParseDef) properties options :
  (forall p options currentOption, In p properties ->
     rec p.2 options currentOption
     = Some (options ++ appended p.2, resolve p.2 <$> currentOption)) ->
  parseProperties rec properties options
  = Some (options ++ List.concat (map pushed properties)).
Proof.
  revert options. induction properties as [|p rest IH]; intros options Hrec; simpl.
  - by rewrite app_nil_r.
  - unfold parseProperty. rewrite Hrec by (by left). simpl.
    rewrite IH by (intros; apply Hrec; by right).
    unfold pushed at 2. by rewrite <- !app_assoc.
Qed.

Lemma appended_object a shape :
  appended (ZodObjectDef a shape)
  = List.concat (map pushed (JsObject.ownProperties shape)).
Proof.
  simpl. rewrite JsObjectFacts.ownProperties_map. by rewrite map_map.
Qed.

(** With [height def] turns at hand the loop comes to its end. *)
Theorem parseDef_spec fuel def options currentOption :
  height def <= fuel ->
  parseDef fuel def options currentOption
  = Some (options ++ appended def, resolve def <$> currentOption).
Proof.
  revert def options currentOption.
  induction fuel as [|fuel IH]; intros def options currentOption Hfuel.
  { pose proof (height_pos def). lia. }
  rewrite resolve_current_next.
  destruct (isObject def) eqn:Hobj.
  - destruct def; try discriminate. cbn [parseDef getParseFn next].
    unfold parseObject. rewrite parseProperties_spec.
    + rewrite appended_object. by destruct currentOption.
    + intros p options' current' Hin. apply IH.
      apply (Permutation_in _ (JsObjectFacts.ownProperties_perm shape)) in Hin.
      apply height_shape in Hin. simpl in Hfuel. lia.
  - cbn [parseDef]. rewrite (appended_next _ Hobj).
    destruct (getParseFn (parseDef fuel) def) as [parse|] eqn:Hfn.
    + rewrite (walker_step _ _ _ _ _ Hobj Hfn).
      destruct (next def) as [d|] eqn:Hnext.
      * apply IH. apply height_next in Hnext. lia.
      * by rewrite app_nil_r.
    + apply unknown_step in Hfn as (Hnext & _ & Hwrite).
      rewrite Hnext, app_nil_r.
      f_equal. f_equal. destruct currentOption; simpl; by rewrite ?Hwrite.
Qed.

(** More turns change nothing: whenever the loop ends, at whatever bound,
    it ends with this table and this descriptor. *)
Lemma parseProperties_sound (rec : ParseDef) properties options result :
  (forall p options currentOption r, In p properties ->
     rec p.2 options currentOption = Some r ->
     r = (options ++ appended p.2, resolve p.2 <$> currentOption)) ->
  parseProperties rec properties options = Some result ->
  result = options ++ List.concat (map pushed properties).
Proof.
  revert options. induction properties as [|p rest IH]; intros options Hrec; simpl.
  - intros [= <-]. by rewrite app_nil_r.
  - unfold parseProperty.
    destruct (rec p.2 options (Some (newOption p.1 p.2))) as [[options' current]|] eqn:E;
      [|done].
    apply Hrec in E as [= -> ->]; [|by left]. simpl.
    intros H. apply IH in H; [|intros; eapply Hrec; [by right|done]].
    subst result. unfold pushed at 2. by rewrite <- !app_assoc.
Qed.

Theorem parseDef_sound fuel def options currentOption r :
  parseDef fuel def options currentOption = Some r ->
  r = (options ++ appended def, resolve def <$> currentOption).
Proof.
  revert def options currentOption r.
  induction fuel as [|fuel IH]; intros def options currentOption r; [done|].
  rewrite resolve_current_next.
  destruct (isObject def) eqn:Hobj.
  - destruct def; try discriminate. cbn [parseDef getParseFn next].
    unfold parseObject.
    destruct (parseProperties _ _ _) as [options'|] eqn:E; [|done].
    apply parseProperties_sound in E; [|intros; by eapply IH].
    intros [= <-]. rewrite appended_object.
    subst options'. by destruct currentOption.
  - cbn [parseDef]. rewrite (appended_next _ Hobj).
    destruct (getParseFn (parseDef fuel) def) as [parse|] eqn:Hfn.
    + rewrite (walker_step _ _ _ _ _ Hobj Hfn).
      destruct (next def) as [d|] eqn:Hnext.
      * apply IH.
      * intros [= <-]. by rewrite app_nil_r.
    + apply unknown_step in Hfn as (Hnext & _ & Hwrite).
      rewrite Hnext, app_nil_r.
      intros [= <-]. f_equal. destruct currentOption; simpl; by rewrite ?Hwrite.
Qed.

Lemma parseDef_keeps_descriptor fuel def options o options' current :
  parseDef fuel def options (Some o) = Some (options', current) ->
  current = Some (resolve def o).
Proof. intros H. by apply parseDef_sound in H as [= _ ->]. Qed.

(** The dispatch goes by the kind alone. *)
Lemma getParseFn_typeName rec def :
  getParseFn rec def = None
  <-> typeName def = ZodAny \/ exists kind, typeName def = ZodOtherKind kind.
Proof.
  destruct def; simpl; split; try done; eauto;
    intros [H|[kind H]]; discriminate H.
Qed.

Lemma schemaToOptions_spec fuel schema :
  height schema <= fuel -> schemaToOptions fuel schema = Some (appended schema).
Proof. intros H. unfold schemaToOptions. by rewrite parseDef_spec. Qed.
End Loop.

(** ** Option projection: the table of an Object root *)
Section Projection.
Implicit Types (shape : list (string * ZodTypeDef)) (def : ZodTypeDef).

Lemma concat_singletons {A B} (f : A -> B) (l : list A) :
  List.concat (map (fun x => [f x]) l) = map f l.
Proof. induction l as [|x l IH]; simpl; [done|]. by rewrite IH. Qed.

Lemma pushed_flat (fields : list (string * ZodTypeDef)) :
  Forall (fun p => reachesObject p.2 = false) fields ->
  List.concat (map pushed fields)
  = map (fun p => resolve p.2 (newOption p.1 p.2)) fields.
Proof.
  intros H. rewrite <- concat_singletons. f_equal.
  induction H as [|p l Hp _ IH]; simpl; [done|].
  unfold pushed at 1. by rewrite (appended_flat _ Hp), IH.
Qed.

Lemma height_field a shape p :
  In p (JsObject.ownProperties shape) ->
  S (height p.2) <= height (ZodObjectDef a shape).
Proof.
  intros Hin.
  apply (Permutation_in _ (JsObjectFacts.ownProperties_perm shape)) in Hin.
  apply height_shape in Hin. simpl. lia.
Qed.
End Projection.

(** C1, as amended.  For a schema whose root is an Object node none of whose
    fields unwraps to a nested Object node, [schemaToOptions] returns a table
    with exactly one descriptor per declared field, in the order in which
    [for ... in] visits the field map: a rearrangement of the declared
    fields, and the declaration order itself when no field key is an array
    index.  Each descriptor is what the unwrap loop makes of the
    descriptor created for the field with [required = true],
    [type = "string"], no autocomplete, the field key as name and the alias
    recorded on the field's node; name and alias are still those at the
    end. *)
Theorem schemaToOptions_one_descriptor_per_field a shape fuel :
  Forall (fun p => reachesObject p.2 = false) shape ->
  height (ZodObjectDef a shape) <= fuel ->
  exists table,
    schemaToOptions fuel (ZodObjectDef a shape) = Some table
    /\ Forall2
         (fun p option =>
            parseDef fuel p.2 []
              (Some {| name := p.1; optAlias := defAlias p.2; required := true;
                       autocomplete := None; type := TString |})
            = Some ([], Some option)
            /\ name option = p.1 /\ optAlias option = defAlias p.2)
         (JsObject.ownProperties shape) table
    /\ JsObject.ownProperties shape ≡ₚ shape
    /\ length table = length shape
    /\ (Forall (fun p => JsObject.isArrayIndex p.1 = false) shape ->
        name <$> table = shape.*1).
Proof.
  intros Hflat Hfuel.
  pose proof (JsObjectFacts.ownProperties_perm shape) as Hperm.
  assert (Hflat' : Forall (fun p => reachesObject p.2 = false)
                     (JsObject.ownProperties shape)) by (by rewrite Hperm).
  exists (map (fun p => resolve p.2 (newOption p.1 p.2)) (JsObject.ownProperties shape)).
  split; [|split; [|split; [|split]]].
  - rewrite schemaToOptions_spec by done.
    by rewrite appended_object, pushed_flat.
  - apply Forall2_fmap_r, Forall_Forall2_diag, Forall_forall.
    intros p Hin. split; [|split].
    + rewrite parseDef_spec.
      * rewrite appended_flat; [done|].
        rewrite Forall_forall in Hflat'. by apply Hflat'.
      * apply list_elem_of_In, (height_field a) in Hin. lia.
    + by rewrite resolve_name.
    + by rewrite resolve_optAlias.
  - done.
  - by rewrite length_map, Hperm.
  - intros Hnamed. rewrite (JsObjectFacts.ownProperties_named _ Hnamed).
    rewrite <- list_fmap_compose. apply list_fmap_ext.
    intros i p _. simpl. by rewrite resolve_name.
Qed.

Lemma schemaToOptions_one_descriptor_per_field_witness :
  exists table,
    schemaToOptions 4 commandOptions = Some table
    /\ length table = 16
    /\ name <$> table
       = ["query"; "output"; "debug"; "verbose"; "authType"; "cloud"; "userName";
          "password"; "certificateFile"; "certificateBase64Encoded"; "thumbprint";
          "appId"; "tenant"; "secret"; "dummyNumber"; "dummyBoolean"].
Proof.
  destruct (schemaToOptions_one_descriptor_per_field None
              (globalShape ++ loginShape) 4) as (table & Htable & _ & _ & Hlen & Hnames).
  - repeat constructor.
  - vm_compute. lia.
  - exists table. split; [exact Htable|]. split; [exact Hlen|].
    apply Hnames. repeat constructor.
Defined.

(** C1 as stated fails twice over.  A field that is itself an Object has its
    own fields pushed onto the same table before it: one declared field, two
    descriptors.  And a field whose key is an array index is visited before
    the keys declared ahead of it. *)
Lemma schemaToOptions_one_descriptor_per_field_counterexample :
  let inner := ZodObjectDef None [("a", ZodStringDef None)] in
  let nested := [("f", inner)] in
  let numbered := [("b", ZodStringDef None); ("1", ZodStringDef None)] in
  schemaToOptions 3 (ZodObjectDef None nested)
  = Some [newOption "a" (ZodStringDef None); newOption "f" inner]
  /\ length nested = 1
  /\ (map name <$> schemaToOptions 2 (ZodObjectDef None numbered)) = Some ["1"; "b"]
  /\ numbered.*1 = ["b"; "1"].
Proof. repeat split. Qed.

(** ** The wrappers *)
Section Wrappers.
Implicit Types (def : ZodTypeDef) (o : OptionInfo).

Lemma height_chain def d : In d (chain def) -> height d <= height def.
Proof.
  induction def; simpl; intros [<-|H]; try done; try (simpl; lia).
  - destruct (negb (isZodAny def1)); [specialize (IHdef1 H); lia|].
    destruct (negb (isZodAny def2)); [specialize (IHdef2 H); lia|done].
  - specialize (IHdef H). lia.
  - specialize (IHdef H). lia.
  - specialize (IHdef H). lia.
Qed.

Lemma write_setRequired_false d o :
  write d (setRequired false o) = setRequired false (write d o).
Proof. by destruct d. Qed.

Lemma resolve_setRequired_false def o :
  resolve def (setRequired false o) = setRequired false (resolve def o).
Proof.
  unfold resolve. revert o.
  induction (chain def) as [|d l IH]; intros o; simpl; [done|].
  by rewrite write_setRequired_false, IH.
Qed.

Lemma hasOptional_chain def a innerType :
  In (ZodOptionalDef a innerType) (chain def) -> hasOptional def = true.
Proof. intros H. apply existsb_exists. by exists (ZodOptionalDef a innerType). Qed.
End Wrappers.

(** C3.  The walker of a Default wrapper hands its child back to the loop
    and touches neither the table nor the descriptor, so the loop goes on
    from the child with the flag as it was.  A field wrapped in Default
    with no Optional in the chain below is in the table with
    [required = true]. *)
Theorem parseDefault_keeps_required fuel a innerType options currentOption b shape key :
  In (key, ZodDefaultDef a innerType) shape ->
  hasOptional innerType = false ->
  height (ZodObjectDef b shape) <= fuel ->
  parseDefault innerType options currentOption
  = Some (Some innerType, options, currentOption)
  /\ parseDef (S fuel) (ZodDefaultDef a innerType) options currentOption
     = parseDef fuel innerType options currentOption
  /\ exists table nested option,
       schemaToOptions fuel (ZodObjectDef b shape) = Some table
       /\ parseDef fuel (ZodDefaultDef a innerType) []
            (Some {| name := key; optAlias := a; required := true;
                     autocomplete := None; type := TString |})
          = Some (nested, Some option)
       /\ option ∈ table
       /\ name option = key
       /\ required option = true.
Proof.
  intros Hin Hopt Hfuel. split; [done|]. split; [done|].
  set (p := (key, ZodDefaultDef a innerType)) in *.
  assert (Hown : In p (JsObject.ownProperties shape)).
  { eapply Permutation_in; [symmetry; apply JsObjectFacts.ownProperties_perm|done]. }
  exists (appended (ZodObjectDef b shape)), (appended p.2),
    (resolve p.2 (newOption p.1 p.2)).
  split; [by apply schemaToOptions_spec|].
  split; [|split; [|split]].
  - change (Some {| name := key; optAlias := a; required := true;
                    autocomplete := None; type := TString |})
      with (Some (newOption p.1 p.2)).
    rewrite (parseDef_spec fuel p.2); [done|].
    apply (height_field b) in Hown. lia.
  - rewrite appended_object. apply list_elem_of_In, in_concat.
    exists (pushed p). split; [by apply in_map|].
    unfold pushed. apply in_or_app. right. by left.
  - by rewrite resolve_name.
  - rewrite resolve_required. simpl. unfold hasOptional in *. simpl. by rewrite Hopt.
Qed.

Lemma parseDefault_keeps_required_witness :
  exists table nested option,
    schemaToOptions 3 globalOptions = Some table
    /\ parseDef 3 (ZodDefaultDef None (ZodBooleanDef None)) []
         (Some {| name := "debug"; optAlias := None; required := true;
                  autocomplete := None; type := TString |})
       = Some (nested, Some option)
    /\ option ∈ table
    /\ name option = "debug"
    /\ required option = true.
Proof.
  refine (proj2 (proj2 (parseDefault_keeps_required 3 None (ZodBooleanDef None)
            [] None None globalShape "debug" _ _ _))).
  - right. right. left. reflexivity.
  - reflexivity.
  - vm_compute. lia.
Defined.

(** C4, as amended.  The walker of an Intersection node hands back its left
    child unless that child is of kind ZodAny, else its right child unless
    that one is of kind ZodAny, and the loop goes on from the child handed
    back: from the left one also when neither child is the marker.  Only
    when both children are of kind ZodAny is nothing handed back, and the
    loop ends with table and descriptor as they are. *)
Theorem parseIntersection_selects fuel a l r options currentOption :
  parseIntersection l r options currentOption
  = Some (match typeName l, typeName r with
          | ZodAny, ZodAny => None
          | ZodAny, _ => Some r
          | _, _ => Some l
          end, options, currentOption)
  /\ parseDef (S fuel) (ZodIntersectionDef a l r) options currentOption
     = match typeName l, typeName r with
       | ZodAny, ZodAny => Some (options, currentOption)
       | ZodAny, _ => parseDef fuel r options currentOption
       | _, _ => parseDef fuel l options currentOption
       end.
Proof.
  cbn [parseDef getParseFn]. unfold parseIntersection, isZodAny.
  split; destruct (typeName l), (typeName r); reflexivity.
Qed.

(** C4 as stated fails when neither child is the marker: the loop does not
    halt at the Intersection node but goes on with the left child, here a
    Number leaf, whose type ends up in the descriptor. *)
Lemma parseIntersection_selects_counterexample :
  let l := ZodNumberDef None in
  let r := ZodStringDef None in
  let o := newOption "n" (ZodIntersectionDef None l r) in
  isZodAny l = false /\ isZodAny r = false
  /\ parseIntersection l r [] (Some o) = Some (Some l, [], Some o)
  /\ schemaToOptions 3 (ZodObjectDef None [("n", ZodIntersectionDef None l r)])
     = Some [setType TNumber o].
Proof. repeat split. Qed.


Lemma height_wrapOptional n def : height (wrapOptional n def) = n + height def.
Proof. induction n as [|n IH]; simpl; [done|]. by rewrite <- IH. Qed.




(** ** The leaves *)
Section Leaves.
Implicit Types (def leaf : ZodTypeDef) (o : OptionInfo).

Lemma chain_nonempty def : chain def <> [].
Proof. by destruct def. Qed.

Lemma last_chain_cons def l : l <> [] -> last (def :: l) = last l.
Proof. by destruct l. Qed.

Lemma appended_last def leaf :
  last (chain def) = Some leaf -> appended def = appended leaf.
Proof.
  induction def; simpl; try (by intros [= <-]).
  - destruct (negb (isZodAny def1)) eqn:E1.
    { rewrite last_chain_cons by apply chain_nonempty. apply IHdef1. }
    destruct (negb (isZodAny def2)) eqn:E2.
    { rewrite last_chain_cons by apply chain_nonempty. apply IHdef2. }
    simpl. intros [= <-]. simpl. by rewrite E1, E2.
  - rewrite last_chain_cons by apply chain_nonempty. apply IHdef.
  - rewrite last_chain_cons by apply chain_nonempty. apply IHdef.
  - rewrite last_chain_cons by apply chain_nonempty. apply IHdef.
Qed.

(** The last node of the chain writes last. *)
Lemma resolve_last def leaf o :
  last (chain def) = Some leaf -> exists o', resolve def o = write leaf o'.
Proof.
  intros H. apply last_Some in H as [l Hl].
  unfold resolve. rewrite Hl, foldl_app. simpl. by eexists.
Qed.
End Leaves.

(** C6, as amended.  The walker of a NativeEnum leaf sets the descriptor's
    type to [string] and its autocomplete list to the own property names of
    the enum object, each name once, array-index names first, and hands
    nothing back: the loop ends in that turn, the table untouched.  A field
    whose chain ends in the leaf has this type and this list in its
    finished descriptor. *)
Theorem parseNativeEnum_names fuel def a values options o :
  last (chain def) = Some (ZodNativeEnumDef a values) ->
  height def <= fuel ->
  let names := JsObject.getOwnPropertyNames values in
  parseNativeEnum values options (Some o)
  = Some (None, options, Some (setAutocomplete names (setType TString o)))
  /\ names ≡ₚ values.*1
  /\ parseDef 1 (ZodNativeEnumDef a values) options (Some o)
     = Some (options, Some {| name := name o; optAlias := optAlias o;
                              required := required o;
                              autocomplete := Some names; type := TString |})
  /\ exists option,
       parseDef fuel def options (Some o) = Some (options, Some option)
       /\ type option = TString
       /\ autocomplete option = Some names.
Proof.
  intros Hlast Hfuel names. split; [done|].
  split; [apply JsObjectFacts.getOwnPropertyNames_perm|]. split; [done|].
  exists (resolve def o). rewrite parseDef_spec by done.
  rewrite (appended_last _ _ Hlast). simpl. rewrite app_nil_r.
  destruct (resolve_last _ _ o Hlast) as [o' ->]. done.
Qed.

Lemma parseNativeEnum_names_witness :
  exists option,
    parseDef 3 (ZodDefaultDef None (ZodOptionalDef None (ZodNativeEnumDef None CloudType)))
      [] (Some {| name := "cloud"; optAlias := None; required := true;
                  autocomplete := None; type := TString |})
    = Some ([], Some option)
    /\ type option = TString
    /\ autocomplete option
       = Some ["0"; "1"; "2"; "3"; "4";
               "Public"; "USGov"; "USGovHigh"; "USGovDoD"; "China"].
Proof.
  refine (proj2 (proj2 (proj2 (parseNativeEnum_names 3
    (ZodDefaultDef None (ZodOptionalDef None (ZodNativeEnumDef None CloudType)))
    None CloudType [] _ _ _)))).
  - reflexivity.
  - vm_compute. lia.
Defined.

(** C6 as stated fails for a numeric TypeScript enum, whose object also
    owns the keys of the reverse mapping: for [CloudType] the list holds,
    ahead of the five member names, the five values as strings. *)
Lemma parseNativeEnum_names_counterexample :
  parseDef 1 (ZodNativeEnumDef None CloudType) []
    (Some {| name := "cloud"; optAlias := None; required := true;
             autocomplete := None; type := TString |})
  = Some ([], Some {| name := "cloud"; optAlias := None; required := true;
                      autocomplete :=
                        Some (["0"; "1"; "2"; "3"; "4"] ++ CloudTypeMembers);
                      type := TString |})
  /\ ["0"; "1"; "2"; "3"; "4"] ++ CloudTypeMembers <> CloudTypeMembers
  /\ CloudType !! 0 = Some ("Public", NumberValue 0)
  /\ "0" ∉ CloudTypeMembers.
Proof.
  split; [reflexivity|]. split; [discriminate|]. split; [reflexivity|].
  intros H. by repeat (apply elem_of_cons in H as [H|H]; [discriminate H|]);
    apply elem_of_nil in H.
Qed.

(** C7.  The walker of an Enum leaf sets the descriptor's type to [string]
    and its autocomplete list to the declared values, in their declared
    order, and hands nothing back: the loop ends in that turn, the table
    untouched.  A field whose chain ends in the leaf has this type and this
    list in its finished descriptor. *)
Theorem parseEnum_values fuel def a values options o :
  last (chain def) = Some (ZodEnumDef a values) ->
  height def <= fuel ->
  parseEnum values options (Some o)
  = Some (None, options, Some (setAutocomplete values (setType TString o)))
  /\ parseDef 1 (ZodEnumDef a values) options (Some o)
     = Some (options, Some {| name := name o; optAlias := optAlias o;
                              required := required o;
                              autocomplete := Some values; type := TString |})
  /\ exists option,
       parseDef fuel def options (Some o) = Some (options, Some option)
       /\ type option = TString
       /\ autocomplete option = Some values.
Proof.
  intros Hlast Hfuel. split; [done|]. split; [done|].
  exists (resolve def o). rewrite parseDef_spec by done.
  rewrite (appended_last _ _ Hlast). simpl. rewrite app_nil_r.
  destruct (resolve_last _ _ o Hlast) as [o' ->]. done.
Qed.

Lemma parseEnum_values_witness :
  exists option,
    parseDef 2 (ZodOptionalDef None OutputType) []
      (Some {| name := "output"; optAlias := None; required := true;
               autocomplete := None; type := TString |})
    = Some ([], Some option)
    /\ type option = TString
    /\ autocomplete option = Some ["csv"; "json"; "md"; "text"; "none"].
Proof.
  refine (proj2 (proj2 (parseEnum_values 2 (ZodOptionalDef None OutputType)
    None ["csv"; "json"; "md"; "text"; "none"] [] _ _ _))).
  - reflexivity.
  - vm_compute. lia.
Defined.

(** C8.  On a node of a kind [getParseFn] has no walker for, the loop ends
    at once and without error: table and descriptor come back as they were
    handed in.  When such a node is the outermost node of a field, the
    field's descriptor in the table is the one it was created with. *)
Theorem parseDef_ignores_unknown_kind rec fuel def options currentOption key b :
  getParseFn rec def = None ->
  parseDef (S fuel) def options currentOption = Some (options, currentOption)
  /\ schemaToOptions (S (S fuel)) (ZodObjectDef b [(key, def)])
     = Some [ {| name := key; optAlias := defAlias def; required := true;
                 autocomplete := None; type := TString |} ].
Proof.
  intros H.
  assert (Hstep : forall options currentOption,
    parseDef (S fuel) def options currentOption = Some (options, currentOption)).
  { intros ? ?. destruct def; try discriminate H; reflexivity. }
  split; [apply Hstep|].
  unfold schemaToOptions. cbn [parseDef getParseFn]. unfold parseObject.
  replace (JsObject.ownProperties [(key, def)]) with [(key, def)].
  - cbn [parseProperties]. unfold parseProperty. cbn [fst snd].
    replace (getParseFn (parseDef fuel) def) with (@None Parse); [done|].
    destruct def; try discriminate H; reflexivity.
  - unfold JsObject.ownProperties, JsObject.indexed, JsObject.named. simpl.
    by destruct (JsObject.isArrayIndex key).
Qed.

Lemma parseDef_ignores_unknown_kind_witness :
  parseDef 1 (ZodOtherDef None "ZodNullable") []
    (Some (setRequired false (newOption "x" (ZodStringDef None))))
  = Some ([], Some (setRequired false (newOption "x" (ZodStringDef None))))
  /\ schemaToOptions 2 (ZodObjectDef None [("x", ZodOtherDef (Some "y") "ZodNullable")])
     = Some [ {| name := "x"; optAlias := Some "y"; required := true;
                 autocomplete := None; type := TString |} ].
Proof.
  split.
  - apply (parseDef_ignores_unknown_kind (parseDef 0) 0
             (ZodOtherDef None "ZodNullable") [] _ "x" None). reflexivity.
  - apply (parseDef_ignores_unknown_kind (parseDef 0) 0
             (ZodOtherDef (Some "y") "ZodNullable") [] None "x" None). reflexivity.
Defined.

(** ** The tokenizer configuration *)
Section Tokenizer.
Implicit Types (optionsInfo l : list OptionInfo) (option o : OptionInfo)
  (aliases m : gmap string string).

Lemma enteredAlias_Some o a :
  enteredAlias o = Some a
  <-> optAlias o = Some a /\ truthy a = true /\ name o <> "__proto__".
Proof.
  unfold enteredAlias. destruct (optAlias o) as [a'|].
  - destruct (truthy a') eqn:Et; simpl.
    + destruct (name o =? "__proto__")%string eqn:Ep; simpl.
      * apply String.eqb_eq in Ep. split; [done|]. by intros (_ & _ & ?).
      * apply String.eqb_neq in Ep. split.
        -- by intros [= <-].
        -- by intros ([= <-] & _ & _).
    + split; [done|]. intros ([= <-] & ? & _). congruence.
  - split; [done|]. by intros [? _].
Qed.

Lemma enteredAlias_None o :
  enteredAlias o = None
  <-> forall a, optAlias o = Some a -> truthy a = false \/ name o = "__proto__".
Proof.
  destruct (enteredAlias o) as [a|] eqn:E.
  - apply enteredAlias_Some in E as (Ha & Ht & Hp). split; [done|].
    intros H. destruct (H a Ha); congruence.
  - split; [|done]. intros _ a Ha.
    destruct (truthy a) eqn:Et; [|by left]. right.
    destruct (decide (name o = "__proto__")) as [|Hne]; [done|].
    assert (enteredAlias o = Some a) by (by apply enteredAlias_Some). congruence.
Qed.

Lemma addAlias_lookup m o key :
  addAlias m o !! key
  = if decide (name o = key) then
      match enteredAlias o with Some a => Some a | None => m !! key end
    else m !! key.
Proof.
  unfold addAlias, enteredAlias, JsObject.assign.
  destruct (optAlias o) as [a|];
    [destruct (truthy a); [destruct (name o =? "__proto__")%string|]|];
    simpl; case_decide; subst; by rewrite ?lookup_insert_eq, ?lookup_insert_ne.
Qed.

Lemma aliases_lookup_other m l key :
  key ∉ name <$> l -> foldl addAlias m l !! key = m !! key.
Proof.
  revert m. induction l as [|o l IH]; intros m Hnot; simpl; [done|].
  rewrite fmap_cons, not_elem_of_cons in Hnot. destruct Hnot as [Hne Hnot].
  rewrite IH by done. rewrite addAlias_lookup. by case_decide.
Qed.

Lemma aliases_lookup m l o :
  NoDup (name <$> l) -> o ∈ l ->
  foldl addAlias m l !! name o
  = match enteredAlias o with Some a => Some a | None => m !! name o end.
Proof.
  revert m. induction l as [|h l IH]; intros m Hnd Hin; [by apply elem_of_nil in Hin|].
  rewrite fmap_cons, NoDup_cons in Hnd. destruct Hnd as [Hh Hnd]. simpl.
  apply elem_of_cons in Hin as [->|Hin].
  - rewrite aliases_lookup_other by done. rewrite addAlias_lookup.
    by case_decide.
  - rewrite IH by done. rewrite addAlias_lookup. case_decide as Heq; [|done].
    exfalso. apply Hh. rewrite Heq. by apply list_elem_of_fmap_2.
Qed.

Lemma aliases_origin m l key a :
  foldl addAlias m l !! key = Some a ->
  m !! key = Some a
  \/ exists o, o ∈ l /\ name o = key /\ optAlias o = Some a /\ truthy a = true
                /\ key <> "__proto__".
Proof.
  revert m. induction l as [|h l IH]; intros m; simpl; [by left|].
  intros H. apply IH in H as [H|(o & Ho & ? & ? & ? & ?)].
  - rewrite addAlias_lookup in H. case_decide as Heq; [|by left].
    destruct (enteredAlias h) as [a'|] eqn:E; [|by left].
    injection H as ->. apply enteredAlias_Some in E as (? & ? & ?).
    right. exists h. subst key. repeat split; try done. by left.
  - right. exists o. repeat split; try done. by right.
Qed.

Lemma namesOfType_cons t o l :
  namesOfType t (o :: l)
  = if decide (type o = t) then name o :: namesOfType t l else namesOfType t l.
Proof. unfold namesOfType. rewrite filter_cons. by case_decide. Qed.

Lemma namesOfType_partition l :
  namesOfType TString l ++ namesOfType TNumber l ++ namesOfType TBoolean l
  ≡ₚ name <$> l.
Proof.
  induction l as [|o l IH]; [done|].
  rewrite !namesOfType_cons, fmap_cons.
  destruct (type o); repeat case_decide; try done; simpl.
  - by rewrite IH.
  - rewrite <- !Permutation_middle. by rewrite IH.
  - rewrite <- Permutation_middle. by rewrite IH.
Qed.

Lemma name_unique l o o' :
  NoDup (name <$> l) -> o ∈ l -> o' ∈ l -> name o = name o' -> o = o'.
Proof.
  induction l as [|h l IH]; intros Hnd Ho Ho' Heq; [by apply elem_of_nil in Ho|].
  rewrite fmap_cons, NoDup_cons in Hnd. destruct Hnd as [Hh Hnd].
  apply elem_of_cons in Ho as [->|Ho]; apply elem_of_cons in Ho' as [->|Ho'].
  - done.
  - exfalso. apply Hh. rewrite Heq. by apply list_elem_of_fmap_2.
  - exfalso. apply Hh. rewrite <- Heq. by apply list_elem_of_fmap_2.
  - by apply IH.
Qed.

Lemma namesOfType_elem t l o :
  NoDup (name <$> l) -> o ∈ l -> name o ∈ namesOfType t l <-> type o = t.
Proof.
  intros Hnd Ho. unfold namesOfType. rewrite list_elem_of_fmap. split.
  - intros (o' & Heq & Ho'). apply list_elem_of_filter in Ho' as [Ht Ho'].
    by rewrite (name_unique l o o' Hnd Ho Ho' Heq).
  - intros Ht. exists o. split; [done|]. by apply list_elem_of_filter.
Qed.
End Tokenizer.

(** C9, as amended.  For a table whose names are pairwise distinct, the
    three name lists together hold every option name exactly once, each in
    the list of its descriptor's type and in no other; the alias map has one
    entry per key, each the alias of the option of that name, and an entry
    is there exactly for the options whose alias is a non-empty string and
    whose name is not [__proto__]. *)
Theorem parserOptions_partition optionsInfo :
  NoDup (name <$> optionsInfo) ->
  let cfg := parserOptions optionsInfo in
  stringNames cfg ++ numberNames cfg ++ booleanNames cfg ≡ₚ name <$> optionsInfo
  /\ NoDup (stringNames cfg ++ numberNames cfg ++ booleanNames cfg)
  /\ (forall option, option ∈ optionsInfo ->
        (name option ∈ stringNames cfg <-> type option = TString)
        /\ (name option ∈ numberNames cfg <-> type option = TNumber)
        /\ (name option ∈ booleanNames cfg <-> type option = TBoolean)
        /\ aliasMap cfg !! name option
           = match optAlias option with
             | Some a =>
                 if truthy a && negb (name option =? "__proto__")%string
                 then Some a else None
             | None => None
             end)
  /\ (forall key a, aliasMap cfg !! key = Some a ->
        key <> "__proto__"
        /\ exists option,
             option ∈ optionsInfo /\ name option = key /\ optAlias option = Some a).
Proof.
  intros Hnd cfg. subst cfg.
  cbn [parserOptions stringNames numberNames booleanNames aliasMap].
  split; [apply namesOfType_partition|].
  split; [by rewrite namesOfType_partition|]. split.
  - intros o Ho. do 3 (split; [by apply namesOfType_elem|]).
    rewrite aliases_lookup by done. fold (enteredAlias o).
    by destruct (enteredAlias o).
  - intros key a H. apply aliases_origin in H as [H|(o & ? & ? & ? & _ & ?)].
    + by rewrite lookup_empty in H.
    + split; [done|]. by exists o.
Qed.

Lemma parserOptions_partition_witness :
  let cfg := parserOptions (appended commandOptions) in
  stringNames cfg ++ numberNames cfg ++ booleanNames cfg
    ≡ₚ name <$> appended commandOptions
  /\ aliasMap cfg !! "authType" = Some "t"
  /\ aliasMap cfg !! "cloud" = None.
Proof.
  destruct (parserOptions_partition (appended commandOptions)) as (Hperm & _ & Hin & _).
  - apply (bool_decide_unpack _). by vm_compute.
  - split; [exact Hperm|]. split.
    + refine (proj2 (proj2 (proj2 (Hin
        {| name := "authType"; optAlias := Some "t"; required := false;
           autocomplete := Some ["certificate"; "deviceCode"; "password";
                                 "identity"; "browser"; "secret"];
           type := TString |} _)))).
      vm_compute. do 4 right. left.
    + refine (proj2 (proj2 (proj2 (Hin
        {| name := "cloud"; optAlias := None; required := false;
           autocomplete := Some ["0"; "1"; "2"; "3"; "4"; "Public"; "USGov";
                                 "USGovHigh"; "USGovDoD"; "China"];
           type := TString |} _)))).
      vm_compute. do 5 right. left.
Defined.

(** C9 as stated fails.  The table derived from an object with a field [a],
    annotated with the empty alias, next to an object field holding a number
    field [a] lists the name [a] among the string names and among the number
    names, and the alias map has no entry for the option [a] that carries
    the (empty) alias.  Nor has it one for an option named [__proto__],
    whatever alias that option carries. *)
Lemma parserOptions_partition_counterexample :
  let schema :=
    ZodObjectDef None
      [ ("a", ZodStringDef (Some EmptyString));
        ("f", ZodObjectDef None [("a", ZodNumberDef None)]) ] in
  let first := {| name := "a"; optAlias := Some EmptyString; required := true;
                  autocomplete := None; type := TString |} in
  let second := {| name := "a"; optAlias := None; required := true;
                   autocomplete := None; type := TNumber |} in
  let third := {| name := "f"; optAlias := None; required := true;
                  autocomplete := None; type := TString |} in
  let cfg := parserOptions [first; second; third] in
  let proto := {| name := "__proto__"; optAlias := Some "x"; required := true;
                  autocomplete := None; type := TString |} in
  schemaToOptions 3 schema = Some [first; second; third]
  /\ stringNames cfg = ["a"; "f"]
  /\ numberNames cfg = ["a"]
  /\ optAlias first = Some EmptyString
  /\ aliasMap cfg !! "a" = None
  /\ schemaToOptions 2 (ZodObjectDef None [("__proto__", ZodStringDef (Some "x"))])
     = Some [proto]
  /\ stringNames (parserOptions [proto]) = ["__proto__"]
  /\ aliasMap (parserOptions [proto]) = ∅.
Proof. repeat split. Qed.

(** ** Schemas without an Object *)
Lemma chain_without_object def d :
  reachesObject def = false -> In d (chain def) -> isObject d = false.
Proof.
  unfold reachesObject. intros H Hin.
  destruct (isObject d) eqn:E; [|done].
  assert (existsb isObject (chain def) = true) by (apply existsb_exists; eauto).
  congruence.
Qed.

(** C10, as amended.  For every schema whose chain from the root does not
    come to an Object node, [schemaToOptions] returns the empty table and no
    error: on every node of the chain the walker, called without a
    descriptor in progress, leaves the table as it is and writes nothing. *)
Theorem schemaToOptions_without_object fuel schema :
  reachesObject schema = false ->
  height schema <= fuel ->
  schemaToOptions fuel schema = Some []
  /\ Forall
       (fun def =>
          forall rec parse options,
            getParseFn rec def = Some parse ->
            parse options None = Some (next def, options, None))
       (chain schema).
Proof.
  intros Hflat Hfuel. split.
  - rewrite schemaToOptions_spec by done. by rewrite appended_flat.
  - apply Forall_forall. intros def Hin rec parse options Hfn.
    apply list_elem_of_In in Hin.
    by rewrite (walker_step rec def parse options None
                  (chain_without_object _ _ Hflat Hin) Hfn).
Qed.

Lemma schemaToOptions_without_object_witness :
  schemaToOptions 3 (ZodDefaultDef None (ZodOptionalDef None OutputType)) = Some [].
Proof.
  apply (schemaToOptions_without_object 3
           (ZodDefaultDef None (ZodOptionalDef None OutputType))).
  - reflexivity.
  - vm_compute. lia.
Defined.

(** C10 as stated fails for a root that is not an Object but unwraps to
    one: a refined object (an Effects node over the Object, as
    [getRefinedSchema] builds) and an object intersected with [z.any()]
    both yield the table of the object. *)
Lemma schemaToOptions_without_object_counterexample :
  let object := ZodObjectDef None [("a", ZodStringDef None)] in
  let refined := ZodEffectsDef None object in
  let open := ZodIntersectionDef None object (ZodAnyDef None) in
  isObject refined = false /\ isObject open = false
  /\ schemaToOptions 3 refined = Some [newOption "a" (ZodStringDef None)]
  /\ schemaToOptions 3 open = Some [newOption "a" (ZodStringDef None)].
Proof. repeat split. Qed.

(** ** The login command *)
Example schemaToOptions_commandOptions :
  schemaToOptions 4 commandOptions = Some (appended commandOptions)
  /\ name <$> appended commandOptions
     = ["query"; "output"; "debug"; "verbose"; "authType"; "cloud"; "userName";
        "password"; "certificateFile"; "certificateBase64Encoded"; "thumbprint";
        "appId"; "tenant"; "secret"; "dummyNumber"; "dummyBoolean"]
  /\ stringNames (parserOptions (appended commandOptions))
     = ["query"; "output"; "authType"; "cloud"; "userName"; "password";
        "certificateFile"; "certificateBase64Encoded"; "thumbprint"; "appId";
        "tenant"; "secret"]
  /\ numberNames (parserOptions (appended commandOptions)) = ["dummyNumber"]
  /\ booleanNames (parserOptions (appended commandOptions))
     = ["debug"; "verbose"; "dummyBoolean"]
  /\ aliasMap (parserOptions (appended commandOptions))
     = {[ "authType" := "t"; "userName" := "u"; "password" := "p";
          "certificateFile" := "c"; "secret" := "s" ]}.
Proof. repeat split; by vm_compute. Qed.

Example arrayIndex_keys :
  JsObject.getOwnPropertyNames
    [("b", 1); ("10", 2); ("9", 3); ("01", 4); ("4294967295", 5);
     ("4294967294", 6); ("0", 7); ("-1", 8)]
  = ["0"; "9"; "10"; "4294967294"; "b"; "01"; "4294967295"; "-1"].
Proof. reflexivity. Qed.

(** ** Further properties of the unwrap loop *)
Section LastNode.
Implicit Types (def : ZodTypeDef) (o : OptionInfo).

Lemma last_chain def : last (chain def) = Some (lastNode def).
Proof.
  induction def; simpl; try done;
    try (rewrite last_chain_cons by apply chain_nonempty; done).
  destruct (negb (isZodAny def1)).
  { by rewrite last_chain_cons by apply chain_nonempty. }
  destruct (negb (isZodAny def2)); [|done].
  by rewrite last_chain_cons by apply chain_nonempty.
Qed.

Lemma next_lastNode def : next (lastNode def) = None.
Proof.
  induction def; simpl; try done.
  destruct (negb (isZodAny def1)) eqn:E1; [done|].
  destruct (negb (isZodAny def2)) eqn:E2; [done|]. simpl. by rewrite E1, E2.
Qed.

Lemma isOptional_lastNode def : isOptional (lastNode def) = false.
Proof.
  pose proof (next_lastNode def) as H. by destruct (lastNode def).
Qed.

Lemma hasOptional_next def :
  hasOptional def
  = isOptional def || match next def with Some d => hasOptional d | None => false end.
Proof.
  unfold hasOptional. rewrite chain_next. simpl. by destruct (next def).
Qed.

Lemma lastNode_next def :
  lastNode def = match next def with Some d => lastNode d | None => def end.
Proof.
  destruct def; simpl; try done.
  destruct (negb (isZodAny def1)); [done|]. by destruct (negb (isZodAny def2)).
Qed.

(** The finished descriptor: the flag cleared if the chain has an Optional
    node, then what the last node writes. *)
Lemma resolve_lastNode def o :
  resolve def o = write (lastNode def) (clearRequired (hasOptional def) o).
Proof.
  assert (H : forall n def o, height def <= n ->
    forall b, resolve def (clearRequired b o)
              = write (lastNode def) (clearRequired (b || hasOptional def) o)).
  { clear def o. induction n as [|n IH]; intros def o Hn b.
    { pose proof (height_pos def). lia. }
    rewrite resolve_next, lastNode_next, hasOptional_next.
    destruct (next def) as [d|] eqn:Hnext.
    - assert (Hw : write def (clearRequired b o)
                   = clearRequired (b || isOptional def) o).
      { destruct def; simpl in *; try done; unfold clearRequired; simpl;
          f_equal; rewrite ?orb_false_r, ?orb_true_r, ?andb_false_r; done. }
      rewrite Hw. rewrite IH by (apply height_next in Hnext; lia).
      by rewrite orb_assoc.
    - assert (isOptional def = false) as -> by (by destruct def).
      by rewrite !orb_false_r. }
  specialize (H (height def) def o (Nat.le_refl _) false). simpl in H.
  rewrite <- H. f_equal. unfold clearRequired. destruct o as [n al rq ac ty]; simpl.
  by rewrite andb_true_r.
Qed.

Lemma type_write def o :
  type (write def o)
  = match def with
    | ZodStringDef _ | ZodEnumDef _ _ | ZodNativeEnumDef _ _ => TString
    | ZodNumberDef _ => TNumber
    | ZodBooleanDef _ => TBoolean
    | _ => type o
    end.
Proof. by destruct def. Qed.

Lemma height_lastNode def : height (lastNode def) <= height def.
Proof.
  apply height_chain, list_elem_of_In, last_Some_elem_of, last_chain.
Qed.
End LastNode.

(** C2.  When the chain the loop follows for a field contains an Optional
    wrapper, the finished descriptor has [required = false] and is otherwise
    what the node the chain ends in writes: the leaf's type and autocomplete
    list.  The walker of the wrapper clears the flag and hands its child
    back to the loop, which goes on from the child with the flag cleared, so
    that resolving the wrapper gives the descriptor resolving the child
    alone gives (same table, same type, autocomplete, name and alias), but
    for the cleared flag. *)
Theorem parseOptional_clears_required fuel def a innerType options o :
  In (ZodOptionalDef a innerType) (chain def) ->
  height def <= fuel ->
  (exists options' option leaf,
     parseDef fuel def options (Some o) = Some (options', Some option)
     /\ required option = false
     /\ last (chain def) = Some leaf
     /\ option = write leaf (setRequired false o))
  /\ parseOptional innerType options (Some o)
     = Some (Some innerType, options, Some (setRequired false o))
  /\ (forall fuel' table currentOption,
        parseDef (S fuel') (ZodOptionalDef a innerType) table currentOption
        = parseDef fuel' innerType table (setRequired false <$> currentOption))
  /\ exists options' bare wrapped,
       parseDef fuel innerType options (Some o) = Some (options', Some bare)
       /\ parseDef fuel (ZodOptionalDef a innerType) options (Some o)
          = Some (options', Some wrapped)
       /\ required wrapped = false
       /\ type wrapped = type bare
       /\ autocomplete wrapped = autocomplete bare
       /\ name wrapped = name bare
       /\ optAlias wrapped = optAlias bare.
Proof.
  intros Hin Hfuel. split; [|split; [|split]].
  - exists (options ++ appended def), (resolve def o), (lastNode def).
    split; [by apply parseDef_spec|].
    split; [rewrite resolve_required, (hasOptional_chain _ _ _ Hin);
            apply andb_false_r|].
    split; [apply last_chain|].
    rewrite resolve_lastNode, (hasOptional_chain _ _ _ Hin). f_equal.
    unfold clearRequired, setRequired. f_equal. apply andb_false_r.
  - done.
  - done.
  - apply height_chain in Hin. simpl in Hin.
    exists (options ++ appended innerType), (resolve innerType o),
      (setRequired false (resolve innerType o)).
    split; [apply parseDef_spec; lia|].
    split; [|done].
    rewrite parseDef_spec by (simpl; lia). simpl.
    by rewrite resolve_next, <- resolve_setRequired_false.
Qed.

Lemma parseOptional_clears_required_witness :
  exists options' option leaf,
    parseDef 3 (ZodDefaultDef (Some "t") (ZodOptionalDef None OutputType)) []
      (Some {| name := "authType"; optAlias := Some "t"; required := true;
               autocomplete := None; type := TString |})
    = Some (options', Some option)
    /\ required option = false
    /\ last (chain (ZodDefaultDef (Some "t") (ZodOptionalDef None OutputType)))
       = Some leaf
    /\ option
       = write leaf
           (setRequired false
              {| name := "authType"; optAlias := Some "t"; required := true;
                 autocomplete := None; type := TString |}).
Proof.
  refine (proj1 (parseOptional_clears_required 3
            (ZodDefaultDef (Some "t") (ZodOptionalDef None OutputType))
            None OutputType [] _ _ _)).
  - right. left. reflexivity.
  - vm_compute. lia.
Defined.


Section Annotation.
Implicit Types (def : ZodTypeDef) (o : OptionInfo) (store : list ZodType).

Lemma write_setOptAlias d x o : write d (setOptAlias x o) = setOptAlias x (write d o).
Proof. by destruct d. Qed.

Lemma resolve_setOptAlias def x o :
  resolve def (setOptAlias x o) = setOptAlias x (resolve def o).
Proof.
  unfold resolve. revert o.
  induction (chain def) as [|d l IH]; intros o; simpl; [done|].
  by rewrite write_setOptAlias, IH.
Qed.

Lemma isZodAny_erase def : isZodAny (eraseAlias def) = isZodAny def.
Proof. by destruct def. Qed.

Lemma next_erase def : next (eraseAlias def) = eraseAlias <$> next def.
Proof.
  destruct def; simpl; try done. rewrite !isZodAny_erase.
  destruct (negb (isZodAny def1)); [done|]. by destruct (negb (isZodAny def2)).
Qed.

Lemma write_erase def o : write (eraseAlias def) o = write def o.
Proof. by destruct def. Qed.

Lemma isObject_erase def : isObject (eraseAlias def) = isObject def.
Proof. by destruct def. Qed.

Lemma resolve_erase_bounded n def o :
  height def <= n -> resolve (eraseAlias def) o = resolve def o.
Proof.
  revert def o. induction n as [|n IH]; intros def o Hn.
  { pose proof (height_pos def). lia. }
  rewrite (resolve_next def), (resolve_next (eraseAlias def)).
  rewrite next_erase, write_erase.
  destruct (next def) as [d|] eqn:Hnext; simpl; [|done].
  apply IH. apply height_next in Hnext. lia.
Qed.

Lemma resolve_erase def o : resolve (eraseAlias def) o = resolve def o.
Proof. by apply (resolve_erase_bounded (height def)). Qed.

Lemma newOption_erase key def :
  newOption key (eraseAlias def) = setOptAlias None (newOption key def).
Proof. by destruct def. Qed.

(** Emptying the alias slots of a schema empties those of its table and
    changes nothing else in it. *)
Lemma appended_erase_bounded n def :
  height def <= n -> setOptAlias None <$> appended def = appended (eraseAlias def).
Proof.
  revert def. induction n as [|n IH]; intros def Hn.
  { pose proof (height_pos def). lia. }
  destruct (isObject def) eqn:Hobj.
  - destruct def; try discriminate. cbn [eraseAlias].
    rewrite !appended_object, JsObjectFacts.ownProperties_map.
    assert (Hall : Forall (fun p => height p.2 <= n) (JsObject.ownProperties shape)).
    { apply Forall_forall. intros p Hin.
      apply list_elem_of_In, (height_field alias0) in Hin. lia. }
    clear Hn Hobj. induction Hall as [|p l Hp _ IHl]; [done|].
    cbn [map List.concat]. rewrite fmap_app, IHl. f_equal.
    unfold pushed, JsObject.relabel. cbn [fst snd].
    rewrite fmap_app, (IH _ Hp). f_equal. cbn [fmap list_fmap].
    by rewrite newOption_erase, resolve_setOptAlias, resolve_erase.
  - assert (Hobj' : isObject (eraseAlias def) = false) by (by rewrite isObject_erase).
    rewrite (appended_next _ Hobj), (appended_next _ Hobj'), next_erase.
    destruct (next def) as [d|] eqn:Hnext; simpl; [|done].
    apply IH. apply height_next in Hnext. lia.
Qed.

Lemma height_erase_bounded n def :
  height def <= n -> height (eraseAlias def) = height def.
Proof.
  revert def. induction n as [|n IH]; intros def Hn.
  { pose proof (height_pos def). lia. }
  destruct def; simpl in *; try done;
    try (rewrite IH by lia; done);
    try (rewrite !IH by lia; done).
  f_equal. assert (Hall : Forall (fun p => height p.2 <= n) shape).
  { apply Forall_forall. intros p Hin. apply list_elem_of_In, height_shape in Hin. lia. }
  clear Hn. induction Hall as [|p l Hp _ IHl]; simpl; [done|].
  by rewrite IHl, (IH _ Hp).
Qed.

Lemma tables_up_to_alias def def' :
  eraseAlias def' = eraseAlias def ->
  height def' = height def
  /\ setOptAlias None <$> appended def' = setOptAlias None <$> appended def.
Proof.
  intros H. split.
  - rewrite <- (height_erase_bounded (height def) def) by done.
    rewrite <- (height_erase_bounded (height def') def') by done. by rewrite H.
  - rewrite (appended_erase_bounded (height def) def) by done.
    rewrite (appended_erase_bounded (height def') def') by done. by rewrite H.
Qed.

(** Reading the store *)
Lemma lookup_alias store a type r :
  (alias a type store).2 !! r
  = if decide (r = type) then (fun t => mkZodType (Some a) (payload t)) <$> store !! r
    else store !! r.
Proof.
  unfold alias. cbn [snd]. rewrite list_lookup_alter.
  repeat case_decide; congruence.
Qed.

Lemma defOf_defAlias fuel store r def :
  defOf fuel store r = Some def ->
  exists t, store !! r = Some t /\ defAlias def = nodeAlias t.
Proof.
  destruct fuel as [|fuel]; [done|]. cbn [defOf].
  destruct (store !! r) as [t|]; [|done]. cbn [mbind option_bind].
  intros H. exists t. split; [done|].
  destruct (payload t); simplify_option_eq; done.
Qed.

Lemma defOf_alias fuel store a type root def :
  defOf fuel store root = Some def ->
  exists def',
    defOf fuel (alias a type store).2 root = Some def'
    /\ eraseAlias def' = eraseAlias def
    /\ defAlias def' = if decide (root = type) then Some a else defAlias def.
Proof.
  revert root def. induction fuel as [|fuel IH]; intros root def; [done|].
  cbn [defOf]. rewrite lookup_alias.
  destruct (store !! root) as [t|] eqn:Ht; [|done]. cbn [mbind option_bind].
  remember (if decide (root = type) then mkZodType (Some a) (payload t) else t)
    as t' eqn:Et'.
  assert (Ht' : (if decide (root = type)
                 then (fun t => mkZodType (Some a) (payload t)) <$> Some t
                 else Some t) = Some t') by (rewrite Et'; by case_decide).
  assert (Hp : payload t' = payload t) by (rewrite Et'; by case_decide).
  assert (Ha : nodeAlias t' = if decide (root = type) then Some a else nodeAlias t)
    by (rewrite Et'; by case_decide).
  clear Et'. rewrite Ht'. cbn [mbind option_bind].
  rewrite Hp. clear Ht' Hp.
  destruct (payload t) as [| | | |shape|l r| |schema| |inner|inner|];
    try (intros [= <-]; eexists; split; [done|]; split; [done|]; exact Ha).
  - (* Object *)
    destruct (mapM _ shape) as [fields|] eqn:Hm; [|done]. intros [= <-].
    assert (Hfields : exists fields',
      mapM (fun p => pair p.1 <$> defOf fuel (alias a type store).2 p.2) shape
        = Some fields'
      /\ map (JsObject.relabel (fun p => eraseAlias p.2)) fields'
         = map (JsObject.relabel (fun p => eraseAlias p.2)) fields).
    { clear Ht Ha. revert fields Hm.
      induction shape as [|p shape IHs]; intros fields Hm.
      - injection Hm as <-. by exists [].
      - cbn [mapM] in Hm |- *.
        destruct (defOf fuel store p.2) as [d|] eqn:Hd; [|done].
        cbn [fmap option_fmap option_map mbind option_bind] in Hm.
        destruct (mapM _ shape) as [rest|] eqn:Hrest; [|done].
        cbn [fmap option_fmap option_map mbind option_bind mret option_ret] in Hm.
        injection Hm as <-.
        destruct (IH _ _ Hd) as (d' & Hd' & He & _).
        destruct (IHs _ eq_refl) as (rest' & Hrest' & Hr).
        exists ((p.1, d') :: rest'). rewrite Hd', Hrest'. split; [done|].
        cbn [map]. rewrite Hr. f_equal. unfold JsObject.relabel. cbn [fst snd].
        by rewrite He. }
    destruct Hfields as (fields' & -> & He).
    eexists. split; [done|]. cbn [eraseAlias defAlias]. by rewrite He.
  - (* Intersection *)
    destruct (defOf fuel store l) as [dl|] eqn:Hl; [|done].
    destruct (defOf fuel store r) as [dr|] eqn:Hr; [|done].
    cbn [mbind option_bind]. intros [= <-].
    destruct (IH _ _ Hl) as (dl' & -> & Hel & _).
    destruct (IH _ _ Hr) as (dr' & -> & Her & _).
    cbn [mbind option_bind]. eexists. split; [done|].
    cbn [eraseAlias defAlias]. by rewrite Hel, Her.
  - destruct (defOf fuel store schema) as [d|] eqn:Hd; [|done]. intros [= <-].
    destruct (IH _ _ Hd) as (d' & -> & He & _).
    eexists. split; [done|]. cbn [eraseAlias defAlias]. by rewrite He.
  - destruct (defOf fuel store inner) as [d|] eqn:Hd; [|done]. intros [= <-].
    destruct (IH _ _ Hd) as (d' & -> & He & _).
    eexists. split; [done|]. cbn [eraseAlias defAlias]. by rewrite He.
  - destruct (defOf fuel store inner) as [d|] eqn:Hd; [|done]. intros [= <-].
    destruct (IH _ _ Hd) as (d' & -> & He & _).
    eexists. split; [done|]. cbn [eraseAlias defAlias]. by rewrite He.
Qed.
End Annotation.

(** X1.  The annotator [alias] hands back the object it was given and
    writes the alias slot of that object, in place: no other object and no
    other slot of the store changes.  A schema read from the store after the
    call has the table it had before but for aliases, and in the table of an
    object every field that holds the annotated object, however many do,
    bears the new alias, every other field the alias of the object it
    holds. *)
Theorem alias_writes_in_place fuel fuel' store root type a def :
  defOf fuel store root = Some def ->
  height def <= fuel' ->
  (alias a type store).1 = type
  /\ (forall r, r <> type -> (alias a type store).2 !! r = store !! r)
  /\ (forall t, store !! type = Some t ->
        (alias a type store).2 !! type
        = Some {| nodeAlias := Some a; payload := payload t |})
  /\ exists def' table table',
       defOf fuel (alias a type store).2 root = Some def'
       /\ schemaToOptions fuel' def = Some table
       /\ schemaToOptions fuel' def' = Some table'
       /\ setOptAlias None <$> table' = setOptAlias None <$> table
       /\ forall t shape key r,
            store !! root = Some t -> payload t = ObjectNode shape ->
            (key, r) ∈ shape ->
            exists o', o' ∈ table' /\ name o' = key
                       /\ optAlias o' = if decide (r = type) then Some a
                                        else store !! r ≫= nodeAlias.
Proof.
  intros Hdef Hfuel. split; [done|].
  split; [intros r Hr; rewrite lookup_alias; by case_decide|].
  split; [intros t Ht; rewrite lookup_alias, Ht; by case_decide|].
  destruct (defOf_alias _ _ a type _ _ Hdef) as (def' & Hdef' & Herase & _).
  destruct (tables_up_to_alias _ _ Herase) as [Hheight Htables].
  exists def', (appended def), (appended def').
  split; [done|]. split; [by apply schemaToOptions_spec|].
  split; [apply schemaToOptions_spec; lia|]. split; [done|].
  intros t shape key r Ht Hshape Hin.
  destruct fuel as [|fuel]; [done|].
  cbn [defOf] in Hdef'. rewrite lookup_alias, Ht in Hdef'.
  assert (exists t', (if decide (root = type)
                      then (fun t => mkZodType (Some a) (payload t)) <$> Some t
                      else Some t) = Some t' /\ payload t' = ObjectNode shape)
    as (t' & Ht' & Hp').
  { case_decide; eexists; (split; [done|]); done. }
  rewrite Ht' in Hdef'. cbn [mbind option_bind] in Hdef'. rewrite Hp' in Hdef'.
  destruct (mapM _ shape) as [fields|] eqn:Hm; [|done].
  injection Hdef' as <-.
  rewrite mapM_Some in Hm.
  apply list_elem_of_lookup in Hin as [i Hi].
  destruct (Forall2_lookup_l _ _ _ _ _ Hm Hi) as (q & Hq & Hread).
  cbn [fst snd] in Hread.
  destruct (defOf fuel (alias a type store).2 r) as [d|] eqn:Hd; [|done].
  injection Hread as <-.
  exists (resolve d (newOption key d)).
  split; [|split].
  - rewrite appended_object. apply list_elem_of_In, in_concat.
    exists (pushed (key, d)). split.
    + apply in_map, list_elem_of_In.
      rewrite JsObjectFacts.ownProperties_perm.
      by apply list_elem_of_lookup_2 in Hq.
    + unfold pushed. apply in_or_app. right. by left.
  - by rewrite resolve_name.
  - rewrite resolve_optAlias. cbn [newOption optAlias].
    apply defOf_defAlias in Hd as (tr & Htr & ->).
    rewrite lookup_alias in Htr. case_decide.
    + destruct (store !! r); [|done]. by injection Htr as <-.
    + by rewrite Htr.
Qed.

Lemma alias_writes_in_place_witness :
  let store :=
    [ {| nodeAlias := None; payload := StringNode |};
      {| nodeAlias := None; payload := OptionalNode 0 |};
      {| nodeAlias := None; payload := ObjectNode [("userName", 1); ("login", 1)] |} ] in
  exists def' table table',
    defOf 3 (alias "u" 1 store).2 2 = Some def'
    /\ schemaToOptions 3
         (ZodObjectDef None
            [("userName", ZodOptionalDef None (ZodStringDef None));
             ("login", ZodOptionalDef None (ZodStringDef None))]) = Some table
    /\ schemaToOptions 3 def' = Some table'
    /\ setOptAlias None <$> table' = setOptAlias None <$> table.
Proof.
  intros store.
  destruct (alias_writes_in_place 3 3 store 2 1 "u"
              (ZodObjectDef None
                 [("userName", ZodOptionalDef None (ZodStringDef None));
                  ("login", ZodOptionalDef None (ZodStringDef None))]))
    as (_ & _ & _ & def' & table & table' & H1 & H2 & H3 & H4 & _).
  - reflexivity.
  - vm_compute. lia.
  - by exists def', table, table'.
Defined.

Example alias_shared_node :
  let store :=
    [ {| nodeAlias := None; payload := StringNode |};
      {| nodeAlias := None; payload := OptionalNode 0 |};
      {| nodeAlias := None; payload := ObjectNode [("userName", 1); ("login", 1)] |} ] in
  (defOf 3 (alias "u" 1 store).2 2 ≫= schemaToOptions 3)
  = Some [ {| name := "userName"; optAlias := Some "u"; required := false;
              autocomplete := None; type := TString |};
           {| name := "login"; optAlias := Some "u"; required := false;
              autocomplete := None; type := TString |} ].
Proof. reflexivity. Qed.

(** X2.  Nested objects are flattened, depth first: the table of an Object
    node is made up, property by property in [for ... in] order, of the table
    of the property's own node followed by the property's descriptor, which
    bears the property's key and the alias of its outermost node. *)
Theorem parseObject_flattens a shape fuel :
  height (ZodObjectDef a shape) <= fuel ->
  exists entries,
    schemaToOptions fuel (ZodObjectDef a shape) = Some (List.concat entries)
    /\ Forall2
         (fun p entry =>
            exists nested o,
              schemaToOptions fuel p.2 = Some nested
              /\ parseDef fuel p.2 []
                   (Some {| name := p.1; optAlias := defAlias p.2; required := true;
                            autocomplete := None; type := TString |})
                 = Some (nested, Some o)
              /\ entry = nested ++ [o]
              /\ name o = p.1
              /\ optAlias o = defAlias p.2)
         (JsObject.ownProperties shape) entries.
Proof.
  intros Hfuel. exists (map pushed (JsObject.ownProperties shape)). split.
  - rewrite schemaToOptions_spec by done. by rewrite appended_object.
  - apply Forall2_fmap_r, Forall_Forall2_diag, Forall_forall.
    intros p Hin. apply list_elem_of_In, (height_field a) in Hin.
    exists (appended p.2), (resolve p.2 (newOption p.1 p.2)).
    split; [apply schemaToOptions_spec; lia|].
    split; [rewrite parseDef_spec by lia; done|].
    split; [done|]. by rewrite resolve_name, resolve_optAlias.
Qed.

Lemma parseObject_flattens_witness :
  exists entries,
    schemaToOptions 3
      (ZodObjectDef None
         [("f", ZodObjectDef None [("a", ZodNumberDef None); ("b", ZodStringDef None)]);
          ("g", ZodBooleanDef None)])
    = Some (List.concat entries)
    /\ length entries = 2.
Proof.
  destruct (parseObject_flattens None
    [("f", ZodObjectDef None [("a", ZodNumberDef None); ("b", ZodStringDef None)]);
     ("g", ZodBooleanDef None)] 3) as (entries & Htable & Hentries).
  - vm_compute. lia.
  - exists entries. split; [exact Htable|].
    apply Forall2_length in Hentries. rewrite <- Hentries. reflexivity.
Defined.

(** X3.  Wrappers around a schema are transparent to the table: the table
    of a schema is the table of the node its chain ends in. *)
Theorem schemaToOptions_through_wrappers fuel def d :
  last (chain def) = Some d ->
  height def <= fuel ->
  exists table,
    schemaToOptions fuel def = Some table
    /\ schemaToOptions fuel d = Some table.
Proof.
  intros Hlast Hfuel. exists (appended def).
  split; [by apply schemaToOptions_spec|].
  rewrite (appended_last _ _ Hlast). apply schemaToOptions_spec.
  apply last_Some_elem_of, list_elem_of_In, height_chain in Hlast. lia.
Qed.

Lemma schemaToOptions_through_wrappers_witness :
  exists table,
    schemaToOptions 12 (ZodIntersectionDef None (getRefinedSchema commandOptions)
                          (ZodAnyDef None)) = Some table
    /\ schemaToOptions 12 commandOptions = Some table.
Proof.
  apply (schemaToOptions_through_wrappers 12
           (ZodIntersectionDef None (getRefinedSchema commandOptions) (ZodAnyDef None))
           commandOptions).
  - reflexivity.
  - vm_compute. lia.
Defined.

(** The schema [getRefinedSchema] returns, with its six refinements,
    has the table of the schema it was given: the loop spends one turn on
    each refinement and goes on as it would have from that schema. *)
Lemma getRefinedSchema_same_options fuel schema options currentOption :
  parseDef (6 + fuel) (getRefinedSchema schema) options currentOption
  = parseDef fuel schema options currentOption
  /\ schemaToOptions (6 + fuel) (getRefinedSchema schema)
     = schemaToOptions fuel schema
  /\ schemaToOptions (1 + fuel) (getGlobalRefinedSchema schema)
     = schemaToOptions fuel schema.
Proof. repeat split. Qed.

(** X4.  The finished descriptor of a field depends on two things only,
    whether the chain holds an Optional node and what the node the chain
    ends in writes: name, alias and, short of an Optional node, the flag
    are as handed in. *)
Theorem parseDef_descriptor fuel def options o :
  height def <= fuel ->
  last (chain def) = Some (lastNode def)
  /\ exists options',
       parseDef fuel def options (Some o)
       = Some (options',
               Some (write (lastNode def)
                       {| name := name o; optAlias := optAlias o;
                          required := required o && negb (hasOptional def);
                          autocomplete := autocomplete o; type := type o |})).
Proof.
  intros Hfuel. split; [apply last_chain|].
  exists (options ++ appended def). rewrite parseDef_spec by done. simpl.
  by rewrite resolve_lastNode.
Qed.

Lemma parseDef_descriptor_witness :
  exists options',
    parseDef 4
      (ZodDefaultDef None (ZodOptionalDef None (ZodEffectsDef None (ZodNumberDef None))))
      [] (Some (newOption "n" (ZodAnyDef None)))
    = Some (options',
            Some {| name := "n"; optAlias := None; required := false;
                    autocomplete := None; type := TNumber |}).
Proof.
  refine (proj2 (parseDef_descriptor 4
    (ZodDefaultDef None (ZodOptionalDef None (ZodEffectsDef None (ZodNumberDef None))))
    [] (newOption "n" (ZodAnyDef None)) _)).
  vm_compute. lia.
Defined.

(** X5.  A field whose chain ends in a String, Number or Boolean leaf gets
    that type; its autocomplete list, name and alias stay as they were and
    nothing is pushed onto the table. *)
Theorem primitive_leaf_sets_type fuel def leaf t options o :
  last (chain def) = Some leaf ->
  primitiveType leaf = Some t ->
  height def <= fuel ->
  exists o',
    parseDef fuel def options (Some o) = Some (options, Some o')
    /\ type o' = t
    /\ autocomplete o' = autocomplete o
    /\ name o' = name o
    /\ optAlias o' = optAlias o.
Proof.
  intros Hlast Hprim Hfuel. exists (resolve def o).
  rewrite parseDef_spec by done. rewrite (appended_last _ _ Hlast).
  rewrite resolve_name, resolve_optAlias. simpl.
  rewrite last_chain in Hlast. injection Hlast as Hleaf.
  rewrite resolve_lastNode, Hleaf.
  destruct leaf; simpl in Hprim; try discriminate Hprim;
    injection Hprim as Ht; subst t; simpl; by rewrite app_nil_r.
Qed.

Lemma primitive_leaf_sets_type_witness :
  exists o',
    parseDef 2 (ZodOptionalDef None (ZodBooleanDef None)) []
      (Some (newOption "dummyBoolean" (ZodOptionalDef None (ZodBooleanDef None))))
    = Some ([], Some o')
    /\ type o' = TBoolean
    /\ autocomplete o' = None
    /\ name o' = "dummyBoolean"
    /\ optAlias o' = None.
Proof.
  apply (primitive_leaf_sets_type 2 (ZodOptionalDef None (ZodBooleanDef None))
           (ZodBooleanDef None) TBoolean []
           (newOption "dummyBoolean" (ZodOptionalDef None (ZodBooleanDef None)))).
  - reflexivity.
  - reflexivity.
  - vm_compute. lia.
Defined.

(** X6.  The loop only ever appends: the descriptors already in the table
    stay where and as they are, and what is appended is the table of the
    schema, whatever the table so far and the descriptor in progress; a
    descriptor is handed back exactly when one was handed in. *)
Theorem parseDef_appends fuel def options currentOption :
  height def <= fuel ->
  exists table current,
    schemaToOptions fuel def = Some table
    /\ parseDef fuel def options currentOption = Some (options ++ table, current)
    /\ (is_Some current <-> is_Some currentOption).
Proof.
  intros Hfuel. exists (appended def), (resolve def <$> currentOption).
  split; [by apply schemaToOptions_spec|]. split; [by apply parseDef_spec|].
  by rewrite fmap_is_Some.
Qed.

Lemma parseDef_appends_witness :
  exists table current,
    schemaToOptions 4 commandOptions = Some table
    /\ parseDef 4 commandOptions [newOption "x" (ZodStringDef None)] None
       = Some ([newOption "x" (ZodStringDef None)] ++ table, current)
    /\ (is_Some current <-> is_Some (@None OptionInfo)).
Proof.
  apply (parseDef_appends 4 commandOptions [newOption "x" (ZodStringDef None)] None).
  vm_compute. lia.
Defined.

Section Counting.
Implicit Types (def : ZodTypeDef) (shape : list (string * ZodTypeDef)).

Lemma length_concat_map {A B} (f : A -> list B) (l : list A) :
  length (List.concat (map f l)) = sum_list_with (fun x => length (f x)) l.
Proof. induction l as [|x l IH]; simpl; [done|]. by rewrite length_app, IH. Qed.

Lemma fieldCount_next def :
  isObject def = false ->
  fieldCount def = match next def with Some d => fieldCount d | None => 0 end.
Proof.
  destruct def; simpl; try done.
  destruct (negb (isZodAny def1)); [done|]. by destruct (negb (isZodAny def2)).
Qed.

Lemma length_appended_bounded n def :
  height def <= n -> length (appended def) = fieldCount def.
Proof.
  revert def. induction n as [|n IH]; intros def Hn.
  { pose proof (height_pos def). lia. }
  destruct (isObject def) eqn:Hobj.
  - destruct def; try discriminate. rewrite appended_object, length_concat_map.
    rewrite (JsObjectFacts.ownProperties_perm shape).
    cbn [fieldCount]. simpl in Hn.
    assert (Hall : Forall (fun p => height p.2 <= n) shape).
    { apply Forall_forall. intros p Hin.
      apply list_elem_of_In, height_shape in Hin. lia. }
    clear Hn Hobj. induction Hall as [|p l Hp _ IHl]; simpl; [done|].
    rewrite IHl. unfold pushed. rewrite length_app, (IH _ Hp). simpl. lia.
  - rewrite (appended_next _ Hobj), (fieldCount_next _ Hobj).
    destruct (next def) as [d|] eqn:Hnext; [|done].
    apply IH. apply height_next in Hnext. lia.
Qed.
End Counting.

(** X7.  The table holds one descriptor for every property of every object
    the loop comes to, the objects nested in fields included. *)
Theorem schemaToOptions_length fuel schema :
  height schema <= fuel ->
  exists table,
    schemaToOptions fuel schema = Some table
    /\ length table = fieldCount schema.
Proof.
  intros Hfuel. exists (appended schema).
  split; [by apply schemaToOptions_spec|].
  by apply (length_appended_bounded (height schema)).
Qed.

Lemma schemaToOptions_length_witness :
  exists table,
    schemaToOptions 3
      (ZodObjectDef None
         [("f", ZodObjectDef None [("a", ZodNumberDef None); ("b", ZodStringDef None)]);
          ("g", ZodBooleanDef None)])
    = Some table
    /\ length table = 4.
Proof.
  apply (schemaToOptions_length 3
    (ZodObjectDef None
       [("f", ZodObjectDef None [("a", ZodNumberDef None); ("b", ZodStringDef None)]);
        ("g", ZodBooleanDef None)])).
  vm_compute. lia.
Defined.

(** ** Further properties of the tokenizer configuration *)
Section TokenizerOrder.
Implicit Types (l : list OptionInfo) (o : OptionInfo) (m : gmap string string).

Lemma namesOfType_sublist t l : namesOfType t l `sublist_of` name <$> l.
Proof. unfold namesOfType. apply fmap_sublist, sublist_filter. Qed.

Lemma namesOfType_own_list l o : o ∈ l -> name o ∈ namesOfType (type o) l.
Proof.
  intros Ho. unfold namesOfType. apply list_elem_of_fmap_2.
  by apply list_elem_of_filter.
Qed.

Lemma namesOfType_from t l key :
  key ∈ namesOfType t l -> exists o, o ∈ l /\ name o = key /\ type o = t.
Proof.
  unfold namesOfType. intros (o & -> & Ho)%list_elem_of_fmap.
  apply list_elem_of_filter in Ho as [Ht Ho]. by exists o.
Qed.

(** No alias is entered under [key] by the descriptors of [l]. *)
Lemma aliases_lookup_silent m l key :
  (forall o, o ∈ l -> name o = key -> enteredAlias o = None) ->
  foldl addAlias m l !! key = m !! key.
Proof.
  revert m. induction l as [|h l IH]; intros m Hl; simpl; [done|].
  rewrite IH by (intros; apply Hl; [by right|done]).
  rewrite addAlias_lookup. case_decide as Heq; [|done].
  by rewrite (Hl h) by (by left || done).
Qed.

Lemma aliases_lookup_last m l1 o l2 a :
  enteredAlias o = Some a ->
  (forall o', o' ∈ l2 -> name o' = name o -> enteredAlias o' = None) ->
  foldl addAlias m (l1 ++ o :: l2) !! name o = Some a.
Proof.
  intros Ho Hl2. rewrite foldl_app. simpl.
  rewrite aliases_lookup_silent by done.
  rewrite addAlias_lookup, Ho. by case_decide.
Qed.

End TokenizerOrder.

(** X8.  Whatever the table, duplicates included, each of the three name
    lists keeps the order of the table, every descriptor has its name in
    the list of its own type, a list holds only names of descriptors of
    its type, and together the lists hold each name as often as the table
    does. *)
Theorem parserOptions_lists optionsInfo :
  let cfg := parserOptions optionsInfo in
  stringNames cfg `sublist_of` name <$> optionsInfo
  /\ numberNames cfg `sublist_of` name <$> optionsInfo
  /\ booleanNames cfg `sublist_of` name <$> optionsInfo
  /\ stringNames cfg ++ numberNames cfg ++ booleanNames cfg ≡ₚ name <$> optionsInfo
  /\ Forall (fun option =>
               name option ∈ match type option with
                             | TString => stringNames cfg
                             | TNumber => numberNames cfg
                             | TBoolean => booleanNames cfg
                             end) optionsInfo
  /\ Forall (fun key => exists option,
               option ∈ optionsInfo /\ name option = key /\ type option = TString)
            (stringNames cfg)
  /\ Forall (fun key => exists option,
               option ∈ optionsInfo /\ name option = key /\ type option = TNumber)
            (numberNames cfg)
  /\ Forall (fun key => exists option,
               option ∈ optionsInfo /\ name option = key /\ type option = TBoolean)
            (booleanNames cfg).
Proof.
  intros cfg. subst cfg.
  cbn [parserOptions stringNames numberNames booleanNames aliasMap].
  do 3 (split; [apply namesOfType_sublist|]).
  split; [apply namesOfType_partition|].
  split.
  { apply Forall_forall. intros o Ho.
    pose proof (namesOfType_own_list _ _ Ho). by destruct (type o). }
  repeat split; apply Forall_forall; intros key Hkey; by apply namesOfType_from.
Qed.

(** X9.  Whatever the table, the alias map has an entry under a key
    exactly when the key is not [__proto__] and some descriptor of that name
    carries a non-empty alias, and every entry is the alias of a descriptor
    of that name. *)
Theorem parserOptions_alias_keys optionsInfo key :
  (is_Some (aliasMap (parserOptions optionsInfo) !! key)
   <-> key <> "__proto__"
       /\ exists o b, o ∈ optionsInfo /\ name o = key
                      /\ optAlias o = Some b /\ truthy b = true)
  /\ forall b, aliasMap (parserOptions optionsInfo) !! key = Some b ->
       key <> "__proto__"
       /\ exists o, o ∈ optionsInfo /\ name o = key
                    /\ optAlias o = Some b /\ truthy b = true.
Proof.
  cbn [parserOptions aliasMap].
  assert (Horigin : forall b, foldl addAlias ∅ optionsInfo !! key = Some b ->
            key <> "__proto__"
            /\ exists o, o ∈ optionsInfo /\ name o = key
                         /\ optAlias o = Some b /\ truthy b = true).
  { intros b Hb. apply aliases_origin in Hb as [Hb|(o & ? & ? & ? & ? & ?)].
    - by rewrite lookup_empty in Hb.
    - split; [done|]. by exists o. }
  split; [|done]. split.
  - intros [b Hb]. apply Horigin in Hb as (? & o & ?). split; [done|]. by exists o, b.
  - intros (Hkey & o & b & Ho & Hname & Hb & Htb).
    destruct (foldl addAlias ∅ optionsInfo !! key) eqn:E; [done|].
    exfalso. apply list_elem_of_split in Ho as (l1 & l2 & Hsplit).
    revert E. rewrite Hsplit. clear Hsplit Horigin. subst key.
    induction l2 as [|h l2 IH] using rev_ind.
    + rewrite foldl_app. simpl. rewrite addAlias_lookup.
      rewrite (proj2 (enteredAlias_Some o b)) by done. by case_decide.
    + rewrite app_comm_cons, app_assoc, foldl_app. simpl.
      rewrite addAlias_lookup. case_decide; [|done].
      destruct (enteredAlias h); [done|]. apply IH.
Qed.

(** X10.  When several descriptors of one name, other than [__proto__],
    carry a non-empty alias, the entry of the alias map is the alias of the
    last of them. *)
Theorem parserOptions_alias_last_wins optionsInfo before option after a :
  optionsInfo = before ++ option :: after ->
  name option <> "__proto__" ->
  optAlias option = Some a ->
  truthy a = true ->
  (forall later b, later ∈ after -> name later = name option ->
     optAlias later = Some b -> truthy b = false) ->
  aliasMap (parserOptions optionsInfo) !! name option = Some a.
Proof.
  intros -> Hname Ha Ht Hafter.
  cbn [parserOptions aliasMap]. apply aliases_lookup_last.
  - by apply enteredAlias_Some.
  - intros o' Ho' Hname'. apply enteredAlias_None. intros b Hb. left.
    by apply (Hafter o').
Qed.

Lemma parserOptions_alias_last_wins_witness :
  let first := {| name := "a"; optAlias := Some "x"; required := true;
                  autocomplete := None; type := TString |} in
  let second := {| name := "a"; optAlias := Some "y"; required := true;
                   autocomplete := None; type := TNumber |} in
  let third := {| name := "a"; optAlias := None; required := true;
                  autocomplete := None; type := TNumber |} in
  aliasMap (parserOptions [first; second; third]) !! "a" = Some "y".
Proof.
  intros first second third.
  refine (parserOptions_alias_last_wins [first; second; third]
            [first] second [third] "y" _ _ _ _ _).
  - reflexivity.
  - discriminate.
  - reflexivity.
  - reflexivity.
  - intros later b Hin _ Hb.
    apply list_elem_of_singleton in Hin. subst later. discriminate Hb.
Defined.

(** ** From the schema to the tokenizer configuration *)
Section EndToEnd.
Implicit Types (def : ZodTypeDef) (o : OptionInfo).

Lemma type_resolve def o :
  type o = TString ->
  type (resolve def o)
  = match primitiveType (lastNode def) with Some t => t | None => TString end.
Proof.
  intros Ho. rewrite resolve_lastNode, type_write.
  destruct (lastNode def); simpl; done.
Qed.

Lemma flat_table_names (fields : list (string * ZodTypeDef)) :
  name <$> map (fun p => resolve p.2 (newOption p.1 p.2)) fields = fields.*1.
Proof.
  induction fields as [|p l IH]; [done|].
  cbn [map]. by rewrite !fmap_cons, IH, resolve_name.
Qed.
End EndToEnd.

(** X11.  For an object schema with pairwise distinct keys whose fields
    unwrap to no nested object, the tokenizer configuration built from the
    derived table treats a field by the leaf its chain ends in: the key is a
    number name exactly for a Number leaf, a boolean name exactly for a
    Boolean leaf and a string name in every other case, and its alias entry
    is the non-empty alias of the field's outermost node, if any; a field
    named [__proto__] has no alias entry. *)
Theorem parserOptions_of_schema a shape fuel key def :
  NoDup shape.*1 ->
  Forall (fun p => reachesObject p.2 = false) shape ->
  (key, def) ∈ shape ->
  height (ZodObjectDef a shape) <= fuel ->
  exists table leaf,
    schemaToOptions fuel (ZodObjectDef a shape) = Some table
    /\ last (chain def) = Some leaf
    /\ (key ∈ numberNames (parserOptions table) <-> primitiveType leaf = Some TNumber)
    /\ (key ∈ booleanNames (parserOptions table) <-> primitiveType leaf = Some TBoolean)
    /\ (key ∈ stringNames (parserOptions table)
        <-> primitiveType leaf <> Some TNumber /\ primitiveType leaf <> Some TBoolean)
    /\ aliasMap (parserOptions table) !! key
       = match defAlias def with
         | Some x =>
             if truthy x && negb (key =? "__proto__")%string then Some x else None
         | None => None
         end.
Proof.
  intros Hnd Hflat Hin Hfuel.
  pose proof (JsObjectFacts.ownProperties_perm shape) as Hperm.
  set (table := map (fun p => resolve p.2 (newOption p.1 p.2))
                  (JsObject.ownProperties shape)).
  set (o := resolve def (newOption key def)).
  assert (Htable : schemaToOptions fuel (ZodObjectDef a shape) = Some table).
  { rewrite schemaToOptions_spec by done. rewrite appended_object, pushed_flat; [done|].
    by rewrite Hperm. }
  assert (Hnames : NoDup (name <$> table)).
  { unfold table. rewrite flat_table_names. by rewrite Hperm. }
  assert (Ho : o ∈ table).
  { unfold table, o. rewrite <- Hperm in Hin.
    apply (list_elem_of_fmap_2 (fun p => resolve p.2 (newOption p.1 p.2))) in Hin.
    exact Hin. }
  assert (Hname : name o = key) by (unfold o; by rewrite resolve_name).
  assert (Htype : type o
            = match primitiveType (lastNode def) with Some t => t | None => TString end)
    by (by apply type_resolve).
  exists table, (lastNode def). split; [done|]. split; [apply last_chain|].
  cbn [parserOptions stringNames numberNames booleanNames aliasMap].
  rewrite <- Hname.
  rewrite !(namesOfType_elem _ table o Hnames Ho), Htype.
  split; [|split; [|split]].
  - destruct (primitiveType (lastNode def)) as [[]|]; split; congruence.
  - destruct (primitiveType (lastNode def)) as [[]|]; split; congruence.
  - destruct (primitiveType (lastNode def)) as [[]|]; split; try congruence;
      try done; intros [? ?]; congruence.
  - rewrite (aliases_lookup ∅ table o Hnames Ho). unfold enteredAlias.
    rewrite Hname. unfold o. rewrite resolve_optAlias. simpl.
    destruct (defAlias def) as [x|]; [|done].
    by destruct (truthy x && negb (key =? "__proto__")%string).
Qed.

Lemma parserOptions_of_schema_witness :
  exists table leaf,
    schemaToOptions 4 commandOptions = Some table
    /\ last (chain (ZodOptionalDef None (ZodNumberDef None))) = Some leaf
    /\ ("dummyNumber" ∈ numberNames (parserOptions table)
        <-> primitiveType leaf = Some TNumber)
    /\ ("dummyNumber" ∈ booleanNames (parserOptions table)
        <-> primitiveType leaf = Some TBoolean)
    /\ ("dummyNumber" ∈ stringNames (parserOptions table)
        <-> primitiveType leaf <> Some TNumber /\ primitiveType leaf <> Some TBoolean)
    /\ aliasMap (parserOptions table) !! "dummyNumber" = None.
Proof.
  apply (parserOptions_of_schema None (globalShape ++ loginShape) 4
           "dummyNumber" (ZodOptionalDef None (ZodNumberDef None))).
  - apply (bool_decide_unpack _). by vm_compute.
  - repeat constructor.
  - apply list_elem_of_In. vm_compute. do 14 right. left. reflexivity.
  - vm_compute. lia.
Defined.
